(** * The manifest engine of the Knative Serving operator

    A shallow embedding of [pkg/manifests] (the revision that has [Apply],
    [Delete], [ResourceNames] and [isClusterScoped]) and the properties of
    its parse / apply / delete life cycle; after it, the two other
    revisions of the engine in the sources (the draft that creates blindly,
    and the one before the cluster-scope check) and [Reconcile] of the
    install controller, the caller of the engine.

    Go strings are byte strings ([string]); a slice is a reference to a
    backing array and an [unstructured.Unstructured] is a struct holding a
    reference to its field map, so both live in an explicit heap and the
    aliasing the Go code has is the aliasing the model has. *)

From Stdlib Require Import ZArith Ascii String.
From stdpp Require Import gmap strings list fin_maps.

#[local] Set Warnings "-clear-no-such-hyp".

(** ** Go's [strings] package, on byte strings *)

Module Strings.

(** [strings.Map(unicode.ToLower, s)]: the slow path of [Strings.ToLower],
    taken only when [s] holds a byte [>= utf8.RuneSelf].  The Unicode case
    tables are not part of this repository; any mapping may be supplied. *)
Class UnicodeLower := unicode_lower : string → string.

Definition RuneSelf : nat := 128.

Fixpoint all_bytes (p : ascii → bool) (s : string) : bool :=
  match s with
  | EmptyString => true
  | String c s' => p c && all_bytes p s'
  end.

Fixpoint map_bytes (f : ascii → ascii) (s : string) : string :=
  match s with
  | EmptyString => EmptyString
  | String c s' => String (f c) (map_bytes f s')
  end.

(** ['A' <= c && c <= 'Z'] *)
Definition is_upper (c : ascii) : bool :=
  (65 <=? nat_of_ascii c)%nat && (nat_of_ascii c <=? 90)%nat.

(** [c += 'a' - 'A'] on an upper-case byte *)
Definition lower_byte (c : ascii) : ascii :=
  if is_upper c then ascii_of_nat (nat_of_ascii c + 32) else c.

Definition isASCII (s : string) : bool :=
  all_bytes (λ c, (nat_of_ascii c <? RuneSelf)%nat) s.

Definition hasUpper (s : string) : bool :=
  negb (all_bytes (λ c, negb (is_upper c)) s).

Definition ToLower `{UnicodeLower} (s : string) : string :=
  if isASCII s then
    if hasUpper s then map_bytes lower_byte s else s
  else unicode_lower s.

(** [len(s) >= len(suffix) && s[len(s)-len(suffix):] == suffix] *)
Definition HasSuffix (s suffix : string) : bool :=
  (String.length suffix <=? String.length s)%nat
  && String.eqb
       (substring (String.length s - String.length suffix)
                  (String.length suffix) s)
       suffix.

(** [strings.Count(s, sep)] for a one-byte separator *)
Fixpoint CountByte (c : ascii) (s : string) : nat :=
  match s with
  | EmptyString => 0
  | String d s' => (if Ascii.eqb c d then 1 else 0) + CountByte c s'
  end.

(** [strings.Index(s, sep)] for a one-byte separator; [None] is Go's -1 *)
Fixpoint IndexByte (c : ascii) (s : string) : option nat :=
  match s with
  | EmptyString => None
  | String d s' =>
      if Ascii.eqb c d then Some 0 else S <$> IndexByte c s'
  end.

End Strings.

Section Pluralize.
Context `{Strings.UnicodeLower}.

(** [ret[:len(ret)-1]] *)
Definition drop_last (ret : string) : string :=
  substring 0 (String.length ret - 1) ret.

Definition pluralize (kind : string) : string :=
  let ret := Strings.ToLower kind in
  if Strings.HasSuffix ret "s" then ret +:+ "es"
  else if Strings.HasSuffix ret "policy" then drop_last ret +:+ "ies"
  else ret +:+ "s".

Definition isClusterScoped (kind : string) : bool :=
  let k := Strings.ToLower kind in
  if String.eqb k "namespace" then true
  else if String.eqb k "clusterrole" then true
  else if String.eqb k "clusterrolebinding" then true
  else if String.eqb k "customresourcedefinition" then true
  else false.
End Pluralize.


(** ** Errors

    [io.EOF], the API status errors of [k8s.io/apimachinery/pkg/api/errors]
    (told apart by their [StatusReason], a string), and plain
    [fmt.Errorf] errors. *)

Inductive error :=
  | EOF
  | StatusError (reason : string)
  | errorString (msg : string).

#[global] Instance error_eq_dec : EqDecision error.
Proof. solve_decision. Defined.

Definition StatusReasonNotFound : string := "NotFound".
Definition StatusReasonAlreadyExists : string := "AlreadyExists".
Definition StatusReasonUnknown : string := "".

Definition ReasonForError (err : error) : string :=
  match err with
  | StatusError reason => reason
  | _ => StatusReasonUnknown
  end.

Definition IsNotFound (err : error) : bool :=
  String.eqb (ReasonForError err) StatusReasonNotFound.

Definition IsAlreadyExists (err : error) : bool :=
  String.eqb (ReasonForError err) StatusReasonAlreadyExists.

(** ** [k8s.io/apimachinery/pkg/runtime/schema] *)

Record GroupVersion := { gv_Group : string; gv_Version : string }.

Record GroupVersionResource :=
  { gvr_Group : string; gvr_Version : string; gvr_Resource : string }.

Record GroupVersionKind :=
  { gvk_Group : string; gvk_Version : string; gvk_Kind : string }.

Definition slash : ascii := "/"%char.

(** [schema.ParseGroupVersion]: the empty string and ["/"] give the empty
    group-version, no slash gives a bare version, one slash splits, and
    anything else is an error. *)
Definition ParseGroupVersion (gv : string) : GroupVersion + error :=
  if (String.length gv =? 0)%nat || String.eqb gv "/" then
    inl {| gv_Group := ""; gv_Version := "" |}
  else
    match Strings.CountByte slash gv with
    | 0 => inl {| gv_Group := ""; gv_Version := gv |}
    | 1 =>
        let i := default 0 (Strings.IndexByte slash gv) in
        inl {| gv_Group := substring 0 i gv;
               gv_Version := substring (i + 1) (String.length gv - (i + 1)) gv |}
    | _ => inr (errorString ("unexpected GroupVersion string: " +:+ gv))
    end.

Definition WithResource (gv : GroupVersion) (resource : string)
  : GroupVersionResource :=
  {| gvr_Group := gv_Group gv; gvr_Version := gv_Version gv;
     gvr_Resource := resource |}.

Definition WithKind (gv : GroupVersion) (kind : string) : GroupVersionKind :=
  {| gvk_Group := gv_Group gv; gvk_Version := gv_Version gv;
     gvk_Kind := kind |}.

(** [GroupVersionKind.String] *)
Definition GroupVersionKind_String (gvk : GroupVersionKind) : string :=
  gvk_Group gvk +:+ "/" +:+ gvk_Version gvk +:+ ", Kind=" +:+ gvk_Kind gvk.

(** ** Resources *)

Record OwnerReference := {
  or_APIVersion : string;
  or_Kind : string;
  or_Name : string;
  or_UID : string;
  or_Controller : option bool;
  or_BlockOwnerDeletion : option bool;
}.

(** The field map behind an [Unstructured]: the fields the engine reads
    and writes through accessors, and the rest of the document. *)
Record Fields := {
  f_apiVersion : string;
  f_kind : string;
  f_namespace : string;
  f_name : string;
  f_ownerReferences : list OwnerReference;
  f_rest : string;
}.

#[global] Instance Fields_inhabited : Inhabited Fields :=
  populate {| f_apiVersion := ""; f_kind := ""; f_namespace := "";
              f_name := ""; f_ownerReferences := []; f_rest := "" |}.

Abbreviation loc := positive.

(** [unstructured.Unstructured] is a struct with one field, a map; copying
    the struct copies the reference.  [None] is the [nil] map of the zero
    struct. *)
Record Unstructured := { Object : option loc }.

#[global] Instance Unstructured_eq_dec : EqDecision Unstructured.
Proof. solve_decision. Defined.

Record YamlFile := {
  name : string;
  resources : loc;  (* []unstructured.Unstructured *)
}.

(** ** The remote dynamic API *)

(** What [dc.Resource(gvr)] and [.Namespace(ns)] build: the endpoint. *)
Record ResourceInterface := {
  ri_resource : GroupVersionResource;
  ri_namespace : string;
}.

Definition Resource (gvr : GroupVersionResource) : ResourceInterface :=
  {| ri_resource := gvr; ri_namespace := "" |}.

Definition Namespace (c : ResourceInterface) (ns : string) : ResourceInterface :=
  {| ri_resource := ri_resource c; ri_namespace := ns |}.

(** [dynamic.Interface], over the state [Σ] of the remote side.  Each call
    returns the [err] of the Go call ([None] is [nil]) and the next remote
    state; the objects [Get] and [Create] return are dropped by the engine. *)
Class DynamicInterface (Σ : Type) := {
  dyn_Get : ResourceInterface → string → Σ → option error * Σ;
  dyn_Create : ResourceInterface → Fields → Σ → option error * Σ;
  dyn_Delete : ResourceInterface → string → Σ → option error * Σ;
}.

Inductive Call :=
  | CallGet (c : ResourceInterface) (name : string)
  | CallCreate (c : ResourceInterface) (obj : Fields)
  | CallDelete (c : ResourceInterface) (name : string).

Inductive LogEntry :=
  | LogInfo (msg : string) (keysAndValues : list (string * string))
  | LogError (err : error) (msg : string).

(** ** Program state

    The Go heap (backing arrays of slices, field maps of resources), the
    remote side, and two ghost histories: the remote calls issued and the
    lines logged. *)
Record State (Σ : Type) := mkState {
  slices : gmap loc (list Unstructured);
  objects : gmap loc Fields;
  cluster : Σ;
  calls : list Call;
  logs : list LogEntry;
}.
Arguments mkState {Σ}.
Arguments slices {Σ}.
Arguments objects {Σ}.
Arguments cluster {Σ}.
Arguments calls {Σ}.
Arguments logs {Σ}.

Section Engine.
Context `{Strings.UnicodeLower} {Σ : Type} `{DynamicInterface Σ}.

Implicit Types (st : State Σ) (spec : Unstructured) (f : YamlFile).

Definition set_slices (m : gmap loc (list Unstructured)) st : State Σ :=
  mkState m (objects st) (cluster st) (calls st) (logs st).

Definition set_objects (m : gmap loc Fields) st : State Σ :=
  mkState (slices st) m (cluster st) (calls st) (logs st).

(** One remote call: the remote side moves on and the call is noted. *)
Definition remote_call (call : Call) (r : Σ) st : State Σ :=
  mkState (slices st) (objects st) r (calls st ++ [call]) (logs st).

Definition log_entry (e : LogEntry) st : State Σ :=
  mkState (slices st) (objects st) (cluster st) (calls st) (logs st ++ [e]).

(** *** Accessors of [Unstructured] *)

(** Reading a [nil] map gives zero values. *)
Definition fields spec st : Fields :=
  match Object spec with
  | Some l => objects st !!! l
  | None => inhabitant
  end.

Definition GetAPIVersion spec st : string := f_apiVersion (fields spec st).
Definition GetKind spec st : string := f_kind (fields spec st).
Definition GetNamespace spec st : string := f_namespace (fields spec st).
Definition GetName spec st : string := f_name (fields spec st).

Definition with_ownerReferences (refs : list OwnerReference) (o : Fields)
  : Fields :=
  {| f_apiVersion := f_apiVersion o; f_kind := f_kind o;
     f_namespace := f_namespace o; f_name := f_name o;
     f_ownerReferences := refs; f_rest := f_rest o |}.

(** Writes into the map [spec.Object] points to: every copy of the struct
    sees the new list.  A [nil] map is first replaced, in this copy of the
    struct only, by a new one. *)
Definition SetOwnerReferences spec (refs : list OwnerReference) st
  : Unstructured * State Σ :=
  let l := default (fresh (dom (objects st))) (Object spec) in
  ({| Object := Some l |},
   set_objects
     (<[l := with_ownerReferences refs (fields spec st)]> (objects st)) st).

(** [Unstructured.GroupVersionKind] *)
Definition GroupVersionKind_of spec st : GroupVersionKind :=
  match ParseGroupVersion (GetAPIVersion spec st) with
  | inr _ => {| gvk_Group := ""; gvk_Version := ""; gvk_Kind := "" |}
  | inl gv => WithKind gv (GetKind spec st)
  end.

(** *** [client] *)

Definition client spec st : ResourceInterface + error :=
  match ParseGroupVersion (GetAPIVersion spec st) with
  | inr err => inr err
  | inl groupVersion =>
      let groupVersionResource :=
        WithResource groupVersion (pluralize (GetKind spec st)) in
      let ns := GetNamespace spec st in
      if String.eqb ns "" then inl (Resource groupVersionResource)
      else inl (Namespace (Resource groupVersionResource) ns)
  end.

(** *** Calls on the resolved endpoint *)

Definition Get (c : ResourceInterface) (nm : string) st
  : option error * State Σ :=
  let '(err, r) := dyn_Get c nm (cluster st) in
  (err, remote_call (CallGet c nm) r st).

(** [c.Create(&spec, ...)] sends the object as it is in the heap now. *)
Definition Create (c : ResourceInterface) spec st
  : option error * State Σ :=
  let obj := fields spec st in
  let '(err, r) := dyn_Create c obj (cluster st) in
  (err, remote_call (CallCreate c obj) r st).

Definition Delete_call (c : ResourceInterface) (nm : string) st
  : option error * State Σ :=
  let '(err, r) := dyn_Delete c nm (cluster st) in
  (err, remote_call (CallDelete c nm) r st).

(** *** [Apply] *)

(** The body of [for _, spec := range f.resources].  [Some err] is
    [return err]; [None] is [continue] or falling off the end of the body.
    [spec] is a copy of the element, holding the same map. *)
Definition Apply_body (owner : OwnerReference) spec st
  : option error * State Σ :=
  match client spec st with
  | inr err => (Some err, st)
  | inl c =>
      let '(err, st) := Get c (GetName spec st) st in
      match err with
      | None => (None, st)
      | Some err =>
          if negb (IsNotFound err) then (Some err, st)
          else
            let '(spec, st) :=
              if negb (isClusterScoped (GetKind spec st))
              then SetOwnerReferences spec [owner] st
              else (spec, st) in
            let '(err, st) := Create c spec st in
            match err with
            | Some err =>
                if IsAlreadyExists err then (None, st) else (Some err, st)
            | None =>
                (None,
                 log_entry
                   (LogInfo "Created resource"
                      [("type", GroupVersionKind_String
                                  (GroupVersionKind_of spec st));
                       ("name", GetName spec st)]) st)
            end
      end
  end.

Fixpoint Apply_range (owner : OwnerReference) (rs : list Unstructured) st
  : option error * State Σ :=
  match rs with
  | [] => (None, st)
  | spec :: rest =>
      let '(err, st) := Apply_body owner spec st in
      match err with
      | Some err => (Some err, st)
      | None => Apply_range owner rest st
      end
  end.

Definition Apply f (owner : OwnerReference) st : option error * State Σ :=
  Apply_range owner (slices st !!! resources f) st.

(** *** [Delete] *)

(** [make([]unstructured.Unstructured, n)]: a fresh backing array of zero
    structs. *)
Definition make (n : nat) st : loc * State Σ :=
  let a := fresh (dom (slices st)) in
  (a, set_slices (<[a := replicate n {| Object := None |}]> (slices st)) st).

(** [copy(dst, src)]: the first [min(len(dst), len(src))] elements. *)
Definition copy_list {A} (dst src : list A) : list A :=
  take (length dst) src ++ drop (length src) dst.

Definition copy (dst : loc) (src : list Unstructured) st : State Σ :=
  set_slices (<[dst := copy_list (slices st !!! dst) src]> (slices st)) st.

(** Indexing with a Go [int]: out of range is a run-time panic, [None]. *)
Definition at_index {A} (l : list A) (i : Z) : option A :=
  if (i <? 0)%Z then None else l !! Z.to_nat i.

(** [a[left], a[right] = a[right], a[left]] *)
Definition swap {A} (l : list A) (left right : Z) : option (list A) :=
  x ← at_index l right;
  y ← at_index l left;
  Some (<[Z.to_nat right := y]> (<[Z.to_nat left := x]> l)).

(** [for left, right := 0, len(a)-1; left < right;
         left, right = left+1, right-1].  [None] also when the fuel runs
    out; [len(a)] iterations always suffice. *)
Fixpoint reverse_loop {A} (fuel : nat) (left right : Z) (l : list A)
  : option (list A) :=
  if (left <? right)%Z then
    match fuel with
    | O => None
    | S fuel =>
        l ← swap l left right;
        reverse_loop fuel (left + 1)%Z (right - 1)%Z l
    end
  else Some l.

Definition reverse_in_place (a : loc) st : option (State Σ) :=
  let l := slices st !!! a in
  l ← reverse_loop (length l) 0%Z (Z.of_nat (length l) - 1)%Z l;
  Some (set_slices (<[a := l]> (slices st)) st).

(** The body of [for _, spec := range a]; the result of [c.Delete] is
    dropped. *)
Definition Delete_body spec st : option error * State Σ :=
  match client spec st with
  | inr err => (Some err, st)
  | inl c =>
      let st :=
        log_entry
          (LogInfo "Deleting resource"
             [("type", GroupVersionKind_String
                         (GroupVersionKind_of spec st));
              ("name", GetName spec st)]) st in
      let '(_, st) := Delete_call c (GetName spec st) st in
      (None, st)
  end.

Fixpoint Delete_range (a : list Unstructured) st : option error * State Σ :=
  match a with
  | [] => (None, st)
  | spec :: rest =>
      let '(err, st) := Delete_body spec st in
      match err with
      | Some err => (Some err, st)
      | None => Delete_range rest st
      end
  end.

(** [None] is a run-time panic. *)
Definition Delete f st : option (option error * State Σ) :=
  let src := slices st !!! resources f in
  let '(a, st) := make (length src) st in
  let st := copy a src st in
  st ← reverse_in_place a st;
  Some (Delete_range (slices st !!! a) st).

(** *** [ResourceNames] *)

Definition resource_name spec st : string :=
  GetName spec st +:+ " (" +:+
  GroupVersionKind_String (GroupVersionKind_of spec st) +:+ ")".

Definition ResourceNames f st : list string :=
  (λ spec, resource_name spec st) <$> (slices st !!! resources f).

End Engine.

(** ** The manifest parser *)

(** How a call ends that may panic or never return.  A loop with no bound
    in the source runs on fuel here, and [Unfinished] is what it answers
    when the fuel is spent. *)
Inductive Outcome (A : Type) : Type :=
  | Returned (a : A)
  | Panicked
  | Unfinished.
Arguments Returned {A}.
Arguments Panicked {A}.
Arguments Unfinished {A}.

Definition returns {A : Type} (x : Outcome A) : bool :=
  match x with
  | Returned _ => true
  | _ => false
  end.

Definition Outcome_bind {A B : Type} (x : Outcome A) (k : A → Outcome B)
  : Outcome B :=
  match x with
  | Returned a => k a
  | Panicked => Panicked
  | Unfinished => Unfinished
  end.

(** An open [*os.File], as [read] uses it: the size [Stat] reports, [None]
    when [Stat] fails, and what the calls of [Read] on the
    [yaml.NewDocumentDecoder] over the file give: for a buffer of [len]
    bytes, [file_Read len n] is the bytes call number [n] puts at the start
    of the buffer, as many as the size it returns, and the error it
    returns. *)
Record File := {
  file_Stat : option nat;
  file_Read : nat → nat → string * option error;
}.

(** [os.Open]: [None] when it fails. *)
Class Files := os_Open : string → option File.

(** What [yaml.NewYAMLToJSONDecoder(bytes.NewReader(buf)).Decode(&spec)]
    makes of [buf] before it comes to [spec]: an error (of the reader,
    [io.EOF] when there is nothing to read, of the conversion from YAML, or
    of a JSON value that is no object); the JSON value [null], as for a
    document of comments only, which is not handed to [spec] at all; or a
    JSON object, given by its text and its fields, which is handed to
    [spec.UnmarshalJSON]. *)
Inductive Document :=
  | DocumentError (err : error)
  | DocumentNull
  | DocumentObject (json : string) (o : Fields).

Class YAMLDecoder := yaml_to_json : string → Document.

(** [Unstructured.GroupVersionKind] of an object with the fields [o] *)
Definition Fields_GroupVersionKind (o : Fields) : GroupVersionKind :=
  match ParseGroupVersion (f_apiVersion o) with
  | inr _ => {| gvk_Group := ""; gvk_Version := ""; gvk_Kind := "" |}
  | inl gv => WithKind gv (f_kind o)
  end.

(** [spec.UnmarshalJSON], that is [UnstructuredJSONScheme.Decode] into
    [spec]: the object takes the map, and the call fails when the
    group-version-kind the object then reports has no kind.  The text of
    the error is that of [runtime.NewMissingKindErrWithString] behind the
    prefix [yaml.Unmarshal] puts before it. *)
Definition UnmarshalJSON (json : string) (o : Fields) : option error :=
  if (String.length (gvk_Kind (Fields_GroupVersionKind o)) =? 0)%nat
  then Some (errorString
               ("error unmarshaling JSON: Object 'Kind' is missing in '"
                  +:+ json +:+ "'"))
  else None.

Section Parser.
Context `{Files} `{YAMLDecoder} {Σ : Type}.

Implicit Types (st : State Σ).

(** [bytes.MinRead] *)
Definition MinRead : nat := 512.

(** [buffer]: the length of the slice it makes. *)
Definition buffer (file : File) : nat :=
  match file_Stat file with
  | Some size => size
  | None => MinRead
  end.

(** The loop of [read] from its iteration number [i] on: what it sends on
    [sink] before it breaks.  It breaks on [io.EOF] and on nothing else;
    with any other error it sends the [size] bytes of the buffer all the
    same and goes on. *)
Fixpoint read_loop (fuel : nat) (manifests : nat → string * option error)
    (i : nat) : option (list string) :=
  match fuel with
  | O => None
  | S fuel =>
      let '(b, err) := manifests i in
      if decide (err = Some EOF) then Some []
      else (b ::.) <$> read_loop fuel manifests (S i)
  end.

(** The goroutine [read]: what it sends on [sink] before closing it. *)
Definition read (fuel : nat) (filename : string) : Outcome (list string) :=
  match os_Open filename with
  | None => Panicked
  | Some file =>
      let buf := buffer file in
      match read_loop fuel (file_Read file buf) 0 with
      | Some sent => Returned sent
      | None => Unfinished
      end
  end.

(** [Decode(&spec)] on the zero [spec]: the error, or else the map [spec]
    is left with, [None] being the [nil] map it had. *)
Definition Decode (buf : string) : option Fields + error :=
  match yaml_to_json buf with
  | DocumentError err => inr err
  | DocumentNull => inl None
  | DocumentObject json o =>
      match UnmarshalJSON json o with
      | Some err => inr err
      | None => inl (Some o)
      end
  end.

(** [spec.GetName()] after [Decode(&spec)]: the name of the object when
    the decoding came as far as handing it to [spec]. *)
Definition name_after_Decode (buf : string) : string :=
  match yaml_to_json buf with
  | DocumentObject _ o => f_name o
  | _ => ""
  end.

(** A decoded object gets a map of its own. *)
Definition new_object (o : Fields) st : Unstructured * State Σ :=
  let l := fresh (dom (objects st)) in
  ({| Object := Some l |}, set_objects (<[l := o]> (objects st)) st).

(** The goroutine [decode]: what it sends on [out] for the chunks it
    receives on [in].  Both channels are FIFO with one sender and one
    receiver, so the pipeline is a function of the stream. *)
Fixpoint decode (input : list string) st : list Unstructured * State Σ :=
  match input with
  | [] => ([], st)
  | buf :: rest =>
      match Decode buf with
      | inr err =>
          let st :=
            if decide (err ≠ EOF)
            then log_entry (LogError err "Unable to decode YAML; ignoring") st
            else st in
          decode rest st
      | inl None =>
          let '(out, st) := decode rest st in
          ({| Object := None |} :: out, st)
      | inl (Some o) =>
          let '(spec, st) := new_object o st in
          let '(out, st) := decode rest st in
          (spec :: out, st)
      end
  end.

(** [parse] returns when [out] is closed, which [decode] does when [in] is
    closed, which [read] does when its loop breaks. *)
Definition parse (fuel : nat) (filename : string) st
  : Outcome (list Unstructured * State Σ) :=
  match read fuel filename with
  | Returned input => Returned (decode input st)
  | Panicked => Panicked
  | Unfinished => Unfinished
  end.

Definition NewYamlFile (fuel : nat) (path : string) st
  : Outcome (YamlFile * State Σ) :=
  let st := log_entry (LogInfo "Reading YAML file" [("name", path)]) st in
  match parse fuel path st with
  | Returned (result, st) =>
      let a := fresh (dom (slices st)) in
      Returned ({| name := path; resources := a |},
                set_slices (<[a := result]> (slices st)) st)
  | Panicked => Panicked
  | Unfinished => Unfinished
  end.

End Parser.

(** ** A remote object store *)

Abbreviation Key := (string * string * string * string * string)%type.

Definition key_of (c : ResourceInterface) (nm : string) : Key :=
  (gvr_Group (ri_resource c), gvr_Version (ri_resource c),
   gvr_Resource (ri_resource c), ri_namespace c, nm).

(** The remote side of the dynamic API handle, a service of the platform,
    as section 6 of the specification describes it: an object store keyed by
    (group, version, resource, namespace, name), where [get] answers
    NotFound for an absent key, [create] answers AlreadyExists for a present
    one and some other error for a key the platform rejects, and [delete]
    removes. *)
Record Cluster := mkCluster {
  stored : gmap Key Fields;
  rejected : gset Key;
}.

Definition StatusReasonForbidden : string := "Forbidden".

#[global] Instance Cluster_dynamic : DynamicInterface Cluster := {|
  dyn_Get c nm s :=
    match stored s !! key_of c nm with
    | Some _ => (None, s)
    | None => (Some (StatusError StatusReasonNotFound), s)
    end;
  dyn_Create c obj s :=
    let k := key_of c (f_name obj) in
    if decide (k ∈ rejected s) then
      (Some (StatusError StatusReasonForbidden), s)
    else
      match stored s !! k with
      | Some _ => (Some (StatusError StatusReasonAlreadyExists), s)
      | None => (None, mkCluster (<[k := obj]> (stored s)) (rejected s))
      end;
  dyn_Delete c nm s :=
    match stored s !! key_of c nm with
    | Some _ => (None, mkCluster (delete (key_of c nm) (stored s)) (rejected s))
    | None => (Some (StatusError StatusReasonNotFound), s)
    end;
|}.

Definition empty_cluster : Cluster := mkCluster ∅ ∅.

(** ** Vocabulary of the properties *)

Section Vocabulary.
Context `{Strings.UnicodeLower} {Σ : Type} `{DynamicInterface Σ}.

Implicit Types (st : State Σ) (spec : Unstructured) (f : YamlFile).

(** Two field maps that agree on every field but [ownerReferences]. *)
Definition same_fields_but_owner (o o' : Fields) : Prop :=
  f_apiVersion o = f_apiVersion o' ∧ f_kind o = f_kind o' ∧
  f_namespace o = f_namespace o' ∧ f_name o = f_name o' ∧
  f_rest o = f_rest o'.

Definition objects_frame st st' : Prop :=
  ∀ l : loc, same_fields_but_owner (objects st !!! l) (objects st' !!! l).

(** [f.resources] points to an allocated backing array. *)
Definition live f st : Prop := is_Some (slices st !! resources f).

(** The object [Apply] hands to [Create] for [spec] when the heap is [st]. *)
Definition sent (owner : OwnerReference) spec st : Fields :=
  if isClusterScoped (GetKind spec st) then fields spec st
  else with_ownerReferences [owner] (fields spec st).

(** The remote calls one iteration of [Apply] may issue for [spec]: none
    when the endpoint does not resolve, else the existence check, and
    after it possibly the create of the resource. *)
Definition apply_segment st spec (seg : list Call) : Prop :=
  match client spec st with
  | inr _ => seg = []
  | inl c =>
      seg = [CallGet c (GetName spec st)] ∨
      ∃ obj, same_fields_but_owner (fields spec st) obj ∧
             seg = [CallGet c (GetName spec st); CallCreate c obj]
  end.

(** The delete requests [Delete] issues ranging over [a]: one for each
    resource, up to the first whose endpoint does not resolve. *)
Fixpoint issued_deletes (a : list Unstructured) st : list Call :=
  match a with
  | [] => []
  | spec :: rest =>
      match client spec st with
      | inr _ => []
      | inl c => CallDelete c (GetName spec st) :: issued_deletes rest st
      end
  end.

(** The first failure of [schema.ParseGroupVersion] ranging over [a]. *)
Fixpoint resolution_error (a : list Unstructured) st : option error :=
  match a with
  | [] => None
  | spec :: rest =>
      match ParseGroupVersion (GetAPIVersion spec st) with
      | inr err => Some err
      | inl _ => resolution_error rest st
      end
  end.

Definition delete_request spec st : option Call :=
  match client spec st with
  | inr _ => None
  | inl c => Some (CallDelete c (GetName spec st))
  end.

(** The endpoint of [spec] resolves: its [apiVersion] parses. *)
Definition resolves st spec : Prop := ∃ c, client spec st = inl c.

(** The remote calls issued between two states of one run. *)
Definition calls_since st st' : list Call :=
  drop (length (calls st)) (calls st').

Definition is_create (call : Call) : bool :=
  match call with CallCreate _ _ => true | _ => false end.

Definition is_delete (call : Call) : bool :=
  match call with CallDelete _ _ => true | _ => false end.

(** The identity of a resource on the remote side. *)
Definition resource_key spec st : option Key :=
  match client spec st with
  | inr _ => None
  | inl c => Some (key_of c (GetName spec st))
  end.

Definition created_key (call : Call) : option Key :=
  match call with
  | CallCreate c obj => Some (key_of c (f_name obj))
  | _ => None
  end.

(** The keys of [ks] not in [seen], each at its first occurrence. *)
Fixpoint first_occurrences (ks : list Key) (seen : gset Key) : list Key :=
  match ks with
  | [] => []
  | k :: ks =>
      if decide (k ∈ seen) then first_occurrences ks seen
      else k :: first_occurrences ks ({[k]} ∪ seen)
  end.

(** The resources one run of [Apply]'s loop gets through without
    returning an error. *)
Fixpoint processed (owner : OwnerReference) (rs : list Unstructured) st
  : list Unstructured :=
  match rs with
  | [] => []
  | spec :: rest =>
      let '(err, st) := Apply_body owner spec st in
      match err with
      | Some _ => []
      | None => spec :: processed owner rest st
      end
  end.

(** The engine's caller: a sequence of [Apply] and [Delete] calls on one
    [YamlFile].  [None] is a run-time panic. *)
Inductive Op :=
  | OpApply (owner : OwnerReference)
  | OpDelete.

(** The owner references of every field map are in [st'] what they were
    in [st], or the single reference of one of [owners]. *)
Definition owners_kept (owners : list OwnerReference) st st' : Prop :=
  ∀ l : loc,
    f_ownerReferences (objects st' !!! l)
    = f_ownerReferences (objects st !!! l) ∨
    ∃ owner, owner ∈ owners ∧ f_ownerReferences (objects st' !!! l) = [owner].

(** The owners a caller supplies. *)
Definition supplied (ops : list Op) : list OwnerReference :=
  omap (λ op, match op with OpApply owner => Some owner | OpDelete => None end)
       ops.

Fixpoint run (ops : list Op) f st : option (State Σ) :=
  match ops with
  | [] => Some st
  | OpApply owner :: ops => run ops f (Apply f owner st).2
  | OpDelete :: ops => '(_, st) ← Delete f st; run ops f st
  end.

End Vocabulary.

Section ParserVocabulary.
Context `{YAMLDecoder}.

(** What the documents that decode without error leave in [spec], in
    stream order: the fields of an object, or [None] for the [nil] map. *)
Definition decoded (input : list string) : list (option Fields) :=
  omap (λ buf, match Decode buf with
               | inl d => Some d
               | inr _ => None
               end) input.

(** The warnings of [decode]: one for each document whose decoding fails
    with an error other than [io.EOF]. *)
Definition warnings (input : list string) : list LogEntry :=
  omap (λ buf, match Decode buf with
               | inl _ => None
               | inr err =>
                   if decide (err ≠ EOF)
                   then Some (LogError err "Unable to decode YAML; ignoring")
                   else None
               end) input.

(** The resource [spec] is what [decode] makes of a document that left
    [d] in it: the [nil] map, or a map of its own with the fields. *)
Definition made_of {Σ : Type} (st : State Σ) (spec : Unstructured)
    (d : option Fields) : Prop :=
  match d with
  | None => Object spec = None
  | Some o => ∃ l : loc, Object spec = Some l ∧ objects st !! l = Some o
  end.

(** The chunks the calls of [Read] number [i] to [i + n - 1] deliver. *)
Definition chunks (manifests : nat → string * option error) (i n : nat)
  : list string :=
  (λ j, (manifests (i + j)).1) <$> seq 0 n.

(** The call of [Read] number [n] is the first to return [io.EOF]. *)
Definition ends_at (manifests : nat → string * option error) (n : nat)
  : Prop :=
  (manifests n).2 = Some EOF ∧ ∀ i, i < n → (manifests i).2 ≠ Some EOF.
End ParserVocabulary.

(** ** Sample data *)

Module Sample.

#[export] Instance ascii_only : Strings.UnicodeLower := λ s, s.

Definition doc (apiVersion kind ns nm : string) : Fields :=
  {| f_apiVersion := apiVersion; f_kind := kind; f_namespace := ns;
     f_name := nm; f_ownerReferences := []; f_rest := "" |}.

Definition deployment : Fields :=
  doc "apps/v1" "Deployment" "knative-serving" "controller".
Definition crd : Fields :=
  doc "apiextensions.k8s.io/v1beta1" "CustomResourceDefinition" ""
      "services.serving.knative.dev".
Definition service : Fields :=
  doc "v1" "Service" "knative-serving" "webhook".
Definition bad_version : Fields :=
  doc "a/b/c" "Service" "knative-serving" "broken".

Definition owner : OwnerReference :=
  {| or_APIVersion := "serving.knative.dev/v1alpha1"; or_Kind := "Install";
     or_Name := "auto-install"; or_UID := "uid-1";
     or_Controller := Some true; or_BlockOwnerDeletion := Some true |}.

(** A decoder for the samples: each chunk is one word.  The empty chunk
    gives [io.EOF], as the YAML decoder does on a reader with nothing to
    read; a chunk of comments gives the JSON value null; the words for the
    four documents give their objects; anything else is no YAML. *)
#[export] Instance decoder : YAMLDecoder := λ buf,
  if String.eqb buf "" then DocumentError EOF
  else if String.eqb buf "# comments only" then DocumentNull
  else if String.eqb buf "deployment"
  then DocumentObject "{kind: Deployment, name: controller}" deployment
  else if String.eqb buf "crd"
  then DocumentObject "{kind: CustomResourceDefinition}" crd
  else if String.eqb buf "service"
  then DocumentObject "{kind: Service, name: webhook}" service
  else if String.eqb buf "bad-version"
  then DocumentObject "{apiVersion: a/b/c, kind: Service}" bad_version
  else DocumentError
         (errorString
            "error converting YAML to JSON: yaml: did not find expected key").

(** A regular file with the documents [docs]: [Stat] gives its size, the
    calls of [Read] give the documents one by one, and then [io.EOF]. *)
Definition regular (docs : list string) : File :=
  {| file_Stat := Some (foldr (λ d n, String.length d + 4 + n) 0 docs);
     file_Read := λ _ n, match docs !! n with
                         | Some d => (d, None)
                         | None => ("", Some EOF)
                         end |}.

(** A directory: it opens, and every [Read] fails. *)
Definition directory : File :=
  {| file_Stat := Some 4096;
     file_Read := λ _ _, ("", Some (errorString "read /tmp: is a directory"))
  |}.

#[export] Instance files : Files := λ path,
  if String.eqb path "/tmp/knative-serving.yaml"
  then Some (regular ["crd"; "deployment"; "service"])
  else if String.eqb path "/tmp/one-bad-document.yaml"
  then Some (regular ["crd"; ": :"; "service"])
  else if String.eqb path "/tmp/empty-document.yaml"
  then Some (regular ["crd"; ""; "# comments only"; "service"])
  else if String.eqb path "/tmp/bad-version.yaml"
  then Some (regular ["crd"; "bad-version"; "service"])
  else if String.eqb path "/tmp/empty.yaml"
  then Some (regular [])
  else if String.eqb path "/tmp"
  then Some directory
  else None.

Definition init (r : Cluster) : State Cluster := mkState ∅ ∅ r [] [].

(** The engine built from a sample file, facing an empty store. *)
Definition load (path : string) : YamlFile * State Cluster :=
  match NewYamlFile 8 path (init empty_cluster) with
  | Returned built => built
  | _ => ({| name := path; resources := 1%positive |}, init empty_cluster)
  end.

Definition manifest : YamlFile := (load "/tmp/knative-serving.yaml").1.
Definition loaded : State Cluster := (load "/tmp/knative-serving.yaml").2.

Definition empty_manifest : YamlFile := (load "/tmp/empty.yaml").1.
Definition empty_loaded : State Cluster := (load "/tmp/empty.yaml").2.

(** The sample engine after the [apiVersion] of its Deployment was
    overwritten with a/b/c, a string [schema.ParseGroupVersion] refuses.
    No run of the parser gives this state: a document with such an
    [apiVersion] does not decode. *)
Definition bad_manifest : YamlFile := manifest.
Definition bad_loaded : State Cluster :=
  set_objects (<[2%positive := bad_version]> (objects loaded)) loaded.

Definition customresourcedefinitions : ResourceInterface :=
  Resource {| gvr_Group := "apiextensions.k8s.io"; gvr_Version := "v1beta1";
              gvr_Resource := "customresourcedefinitions" |}.

Definition deployments : ResourceInterface :=
  Namespace (Resource {| gvr_Group := "apps"; gvr_Version := "v1";
                         gvr_Resource := "deployments" |})
            "knative-serving".

Definition services : ResourceInterface :=
  Namespace (Resource {| gvr_Group := ""; gvr_Version := "v1";
                         gvr_Resource := "services" |})
            "knative-serving".

(** A store that refuses to create the Deployment. *)
Definition strict_cluster : Cluster :=
  mkCluster ∅ {[ key_of deployments "controller" ]}.

Definition facing (r : Cluster) (st : State Cluster) : State Cluster :=
  mkState (slices st) (objects st) r (calls st) (logs st).

End Sample.


(** ** The draft of the engine

    The revision of the file at lines 315 to 442 of [src/unnamed/part_000]:
    [Apply] takes no owner, parses the file on its first call and hands the
    resources to [create], which creates every one of them without an
    existence check and prints, not returns, the errors of the creates. *)

(** What the draft writes on standard output with [fmt.Println]: the
    resolved group-version-resource in [client], and "ERROR" with the name
    of the resource and the error, in [create] and, for a document that
    does not decode, in [decode]. *)
Inductive Printed :=
  | PrintResource (gvr : GroupVersionResource)
  | PrintError (nm : string) (err : error).

(** The draft's [YamlFile]: [Resources] is [nil] until the first [Apply]. *)
Record DraftYamlFile := {
  Name : string;
  Resources : option loc;
}.

Section Draft.
Context {lower : Strings.UnicodeLower} {files : Files} {decoder : YAMLDecoder}
  {Σ : Type} {remote : DynamicInterface Σ}.

Implicit Types (st : State Σ) (spec : Unstructured) (out : list Printed).

(** The draft's [NewYamlFile] reads nothing. *)
Definition NewYamlFile_draft (path : string) : DraftYamlFile :=
  {| Name := path; Resources := None |}.

(** The draft's [decode] *)
Fixpoint decode_draft (input : list string) st out
  : list Unstructured * State Σ * list Printed :=
  match input with
  | [] => ([], st, out)
  | buf :: rest =>
      match Decode buf with
      | inr err =>
          let out :=
            if decide (err ≠ EOF)
            then out ++ [PrintError (name_after_Decode buf) err]
            else out in
          decode_draft rest st out
      | inl None =>
          let '(result, st, out) := decode_draft rest st out in
          ({| Object := None |} :: result, st, out)
      | inl (Some o) =>
          let '(spec, st) := new_object o st in
          let '(result, st, out) := decode_draft rest st out in
          (spec :: result, st, out)
      end
  end.

Definition parse_draft (fuel : nat) (filename : string) st out
  : Outcome (list Unstructured * State Σ * list Printed) :=
  Outcome_bind (read fuel filename)
               (λ input, Returned (decode_draft input st out)).

(** The draft's [client] *)
Definition client_draft spec st out
  : (ResourceInterface + error) * list Printed :=
  match ParseGroupVersion (GetAPIVersion spec st) with
  | inr err => (inr err, out)
  | inl groupVersion =>
      let groupVersionResource :=
        WithResource groupVersion (pluralize (GetKind spec st)) in
      let out := out ++ [PrintResource groupVersionResource] in
      let ns := GetNamespace spec st in
      if String.eqb ns "" then (inl (Resource groupVersionResource), out)
      else (inl (Namespace (Resource groupVersionResource) ns), out)
  end.

(** The body of the loop of [create] *)
Definition create_body spec st out : option error * State Σ * list Printed :=
  let '(c, out) := client_draft spec st out in
  match c with
  | inr err => (Some err, st, out)
  | inl c =>
      let '(err, st) := Create c spec st in
      match err with
      | Some err => (None, st, out ++ [PrintError (GetName spec st) err])
      | None => (None, st, out)
      end
  end.

Fixpoint create (resources : list Unstructured) st out
  : option error * State Σ * list Printed :=
  match resources with
  | [] => (None, st, out)
  | spec :: rest =>
      let '(err, st, out) := create_body spec st out in
      match err with
      | Some err => (Some err, st, out)
      | None => create rest st out
      end
  end.

(** The draft's [Apply] *)
Definition Apply_draft (fuel : nat) (f : DraftYamlFile) st out
  : Outcome (option error * DraftYamlFile * State Σ * list Printed) :=
  Outcome_bind
    (match Resources f with
     | Some _ => Returned (f, st, out)
     | None =>
         Outcome_bind (parse_draft fuel (Name f) st out)
           (λ '(result, st, out),
              let a := fresh (dom (slices st)) in
              Returned ({| Name := Name f; Resources := Some a |},
                        set_slices (<[a := result]> (slices st)) st, out))
     end)
    (λ '(f, st, out),
       let '(err, st, out) :=
         create (default [] (a ← Resources f; slices st !! a)) st out in
       Returned (err, f, st, out)).

(** The creates [create] issues ranging over [resources]: one for each
    resource, as it is stored, up to the first whose endpoint does not
    resolve. *)
Fixpoint issued_creates (resources : list Unstructured) st : list Call :=
  match resources with
  | [] => []
  | spec :: rest =>
      match client spec st with
      | inr _ => []
      | inl c => CallCreate c (fields spec st) :: issued_creates rest st
      end
  end.

Definition create_request spec st : option Call :=
  match client spec st with
  | inr _ => None
  | inl c => Some (CallCreate c (fields spec st))
  end.

End Draft.

Section DraftStore.
Context {lower : Strings.UnicodeLower}.

(** The store has settled what a create for [k] can do: the object is
    there, or the store rejects it. *)
Definition settled (k : Key) (s : Cluster) : Prop :=
  k ∈ dom (stored s) ∨ k ∈ rejected s.

(** The resources of [resources], up to the first whose endpoint does not
    resolve, are settled in [s]. *)
Fixpoint prefix_settled (resources : list Unstructured) (st : State Cluster)
    (s : Cluster) : Prop :=
  match resources with
  | [] => True
  | spec :: rest =>
      match client spec st with
      | inr _ => True
      | inl c =>
          settled (key_of c (GetName spec st)) s ∧ prefix_settled rest st s
      end
  end.
End DraftStore.

(** ** The engine before the cluster-scope check

    The revision of the file at lines 1 to 137 of [src/unnamed/part_000]:
    [Apply] sets the owner reference on every resource it is about to
    create and logs the kind of what it created; it has no [Delete] and no
    [ResourceNames].  The parser, [pluralize] and [client] are those of the
    later revision. *)

Section Earlier.
Context {lower : Strings.UnicodeLower} {Σ : Type} {remote : DynamicInterface Σ}.

Implicit Types (st : State Σ) (spec : Unstructured).

(** The body of [for _, spec := range f.resources] *)
Definition Apply_body_earlier (owner : OwnerReference) spec st
  : option error * State Σ :=
  match client spec st with
  | inr err => (Some err, st)
  | inl c =>
      let '(err, st) := Get c (GetName spec st) st in
      match err with
      | None => (None, st)
      | Some err =>
          if negb (IsNotFound err) then (Some err, st)
          else
            let '(spec, st) := SetOwnerReferences spec [owner] st in
            let '(err, st) := Create c spec st in
            match err with
            | Some err =>
                if IsAlreadyExists err then (None, st) else (Some err, st)
            | None =>
                (None,
                 log_entry
                   (LogInfo "Created resource"
                      [("kind", GetKind spec st);
                       ("name", GetName spec st)]) st)
            end
      end
  end.

Fixpoint Apply_range_earlier (owner : OwnerReference)
    (rs : list Unstructured) st : option error * State Σ :=
  match rs with
  | [] => (None, st)
  | spec :: rest =>
      let '(err, st) := Apply_body_earlier owner spec st in
      match err with
      | Some err => (Some err, st)
      | None => Apply_range_earlier owner rest st
      end
  end.

Definition Apply_earlier f (owner : OwnerReference) st
  : option error * State Σ :=
  Apply_range_earlier owner (slices st !!! resources f) st.

(** The owner references a call carries, when it is a create. *)
Definition created_owners (call : Call) : option (list OwnerReference) :=
  match call with
  | CallCreate _ obj => Some (f_ownerReferences obj)
  | _ => None
  end.

(** Two states that differ, if at all, in what the log lines say. *)
Definition same_but_log_text st st' : Prop :=
  slices st' = slices st ∧ objects st' = objects st ∧
  cluster st' = cluster st ∧ calls st' = calls st ∧
  length (logs st') = length (logs st).

End Earlier.

(** ** The controller

    [Reconcile] of [src/pkg/controller/install/install_controller.go], the
    caller of the engine. *)

(** [servingv1alpha1.Install], as far as the controller reads and writes
    it: the name and the namespace of its [ObjectMeta] and the two fields
    of its [Status].  [Status.Resources] is a slice of strings; [None] is
    [nil]. *)
Record InstallStatus := {
  Status_Resources : option (list string);
  Status_Version : string;
}.

Record Install := {
  Install_Name : string;
  Install_Namespace : string;
  Install_Status : InstallStatus;
}.

(** The [NamespacedName] of a [reconcile.Request] *)
Record Request := {
  Request_Namespace : string;
  Request_Name : string;
}.

(** What the controller uses of [client.Client], over the state [K] of the
    API server and of the client's cache: [Get] and [Status().Update]. *)
Class Client (K : Type) := {
  client_Get : Request → K → (Install + error) * K;
  client_StatusUpdate : Install → K → option error * K;
}.

(** [os.LookupEnv]: [None] when the variable is not set. *)
Class Environment := LookupEnv : string → option string.

(** [r.config.Apply(instance)].  The controller hands [Apply] the instance
    itself, and the revisions of the engine in the sources take an owner
    reference: what the engine the controller was built with does with the
    instance is left open. *)
Class ApplyInstance (Σ : Type) :=
  config_Apply : YamlFile → Install → State Σ → option error * State Σ.

(** The lines of the controller's logger; those of [reqLogger] carry the
    request. *)
Inductive ControllerLog :=
  | ReqInfo (request : Request) (msg : string)
  | ReqError (request : Request) (err : error) (msg : string).

(** The state the controller works on: that of the engine, that behind the
    client, and the log of the controller. *)
Record Operator (Σ K : Type) := mkOperator {
  engine : State Σ;
  kube : K;
  controller_log : list ControllerLog;
}.
Arguments mkOperator {Σ K}.
Arguments engine {Σ K}.
Arguments kube {Σ K}.
Arguments controller_log {Σ K}.

Section Controller.
Context {lower : Strings.UnicodeLower} {Σ : Type} {remote : DynamicInterface Σ}
  {K : Type} {api : Client K} {env : Environment}
  {with_instance : ApplyInstance Σ}.

Implicit Types (op : Operator Σ K) (st : State Σ).

Definition set_engine st op : Operator Σ K :=
  mkOperator st (kube op) (controller_log op).

Definition set_kube (k : K) op : Operator Σ K :=
  mkOperator (engine op) k (controller_log op).

Definition controller_log_entry (e : ControllerLog) op : Operator Σ K :=
  mkOperator (engine op) (kube op) (controller_log op ++ [e]).

Definition getKnativeServingVersion : string :=
  match LookupEnv "KNATIVE_SERVING_VERSION" with
  | None => "UNKNOWN"
  | Some v => v
  end.

(** The slice [ResourceNames] returns: [names] is declared without a value
    and grows by [append], so it is [nil] when there is no resource. *)
Definition ResourceNames_slice f st : option (list string) :=
  match ResourceNames f st with
  | [] => None
  | names => Some names
  end.

(** The instance after the two assignments to its [Status]. *)
Definition with_status (resources : option (list string)) (version : string)
    (instance : Install) : Install :=
  {| Install_Name := Install_Name instance;
     Install_Namespace := Install_Namespace instance;
     Install_Status := {| Status_Resources := resources;
                          Status_Version := version |} |}.

(** [Reconcile]; [r.config] is [f].  The result is the error, the
    [reconcile.Result] being empty on every path; [None] is a run-time
    panic. *)
Definition Reconcile f (request : Request) op
  : option (option error * Operator Σ K) :=
  let op := controller_log_entry (ReqInfo request "Reconciling Install") op in
  let '(got, k) := client_Get request (kube op) in
  let op := set_kube k op in
  match got with
  | inr err =>
      if IsNotFound err then
        '(_, st) ← Delete f (engine op);
        Some (None, set_engine st op)
      else Some (Some err, op)
  | inl instance =>
      match Status_Resources (Install_Status instance) with
      | Some _ => Some (None, op)
      | None =>
          let '(err, st) := config_Apply f instance (engine op) in
          let op := set_engine st op in
          match err with
          | Some err => Some (Some err, op)
          | None =>
              let instance :=
                with_status (ResourceNames_slice f (engine op))
                            getKnativeServingVersion instance in
              let '(err, k) := client_StatusUpdate instance (kube op) in
              let op := set_kube k op in
              match err with
              | Some err =>
                  Some (Some err,
                        controller_log_entry
                          (ReqError request err "Failed to update status") op)
              | None => Some (None, op)
              end
          end
      end
  end.

End Controller.

(** ** Scenarios *)

Module Scenario.

(** The resources of the sample manifest after its
    CustomResourceDefinition, as a manifest of their own. *)
Definition namespaced_manifest : YamlFile :=
  {| name := "/tmp/namespaced.yaml"; resources := 2%positive |}.

Definition namespaced_loaded : State Cluster :=
  set_slices
    (<[2%positive := drop 1 (slices Sample.loaded
                               !!! resources Sample.manifest)]>
       (slices Sample.loaded))
    Sample.loaded.

(** A client that answers from a list of instances, with no cache in
    between. *)
Definition is_named (request : Request) (instance : Install) : bool :=
  String.eqb (Install_Namespace instance) (Request_Namespace request)
  && String.eqb (Install_Name instance) (Request_Name request).

Definition request_of (instance : Install) : Request :=
  {| Request_Namespace := Install_Namespace instance;
     Request_Name := Install_Name instance |}.

#[export] Instance listed : Client (list Install) := {|
  client_Get request k :=
    (match find (is_named request) k with
     | Some instance => inl instance
     | None => inr (StatusError StatusReasonNotFound)
     end, k);
  client_StatusUpdate instance k :=
    if existsb (is_named (request_of instance)) k
    then (None,
          (λ i, if is_named (request_of instance) i then instance else i) <$> k)
    else (Some (StatusError StatusReasonNotFound), k);
|}.

#[export] Instance no_variable : Environment := λ _, None.

(** An engine that makes of the instance the owner of what it creates. *)
#[export] Instance owned_by_instance : ApplyInstance Cluster :=
  λ f instance st,
    @Apply Sample.ascii_only Cluster _ f
          {| or_APIVersion := "serving.knative.dev/v1alpha1";
             or_Kind := "Install"; or_Name := Install_Name instance;
             or_UID := "uid-1"; or_Controller := Some true;
             or_BlockOwnerDeletion := Some true |}
          st.

Definition auto_install : Install :=
  {| Install_Name := "auto-install"; Install_Namespace := "knative-serving";
     Install_Status := {| Status_Resources := None; Status_Version := "" |} |}.

Definition operator (st : State Cluster) (k : list Install)
  : Operator Cluster (list Install) :=
  mkOperator st k [].

(** The operator after the first request for [auto_install]. *)
Definition reconciled : Operator Cluster (list Install) :=
  (default (None, operator Sample.loaded [auto_install])
           (Reconcile (lower := Sample.ascii_only) Sample.manifest
                      (request_of auto_install)
                      (operator Sample.loaded [auto_install]))).2.

End Scenario.

(** * Properties *)

(** ** Byte strings *)

Lemma string_length_app (s t : string) :
  String.length (s +:+ t) = String.length s + String.length t.
Proof. induction s as [|c s IH]; simpl; [done | by rewrite IH]. Qed.

Lemma substring_all (s : string) : substring 0 (String.length s) s = s.
Proof. induction s as [|c s IH]; simpl; [done | by rewrite IH]. Qed.

Lemma substring_app_r (p q : string) :
  substring (String.length p) (String.length q) (p +:+ q) = q.
Proof. induction p as [|c p IH]; simpl; [apply substring_all | done]. Qed.

Lemma substring_app_l (p q : string) (n : nat) :
  substring 0 (String.length p + n) (p +:+ q) = p +:+ substring 0 n q.
Proof. induction p as [|c p IH]; simpl; [done | by rewrite IH]. Qed.

Lemma substring_split (s : string) (k : nat) :
  (k ≤ String.length s)%nat →
  substring 0 k s +:+ substring k (String.length s - k) s = s.
Proof.
  revert k. induction s as [|c s IH]; intros [|k] Hk; simpl in *; try lia.
  - done.
  - by rewrite substring_all.
  - change (String c (substring 0 k s +:+ substring k (String.length s - k) s)
            = String c s).
    f_equal. apply IH. lia.
Qed.

Lemma HasSuffix_true (s suffix : string) :
  Strings.HasSuffix s suffix = true ↔ ∃ p, s = p +:+ suffix.
Proof.
  unfold Strings.HasSuffix. rewrite andb_true_iff, Nat.leb_le, String.eqb_eq.
  split.
  - intros [Hle Heq].
    exists (substring 0 (String.length s - String.length suffix) s).
    pose proof (substring_split s (String.length s - String.length suffix)
                  ltac:(lia)) as E.
    replace (String.length s - (String.length s - String.length suffix))
      with (String.length suffix) in E by lia.
    by rewrite Heq in E.
  - intros [p ->]. rewrite string_length_app. split; [lia |].
    replace (String.length p + String.length suffix - String.length suffix)
      with (String.length p) by lia.
    apply substring_app_r.
Qed.

Lemma HasSuffix_false (s suffix : string) :
  Strings.HasSuffix s suffix = false ↔ ¬ ∃ p, s = p +:+ suffix.
Proof.
  rewrite <- HasSuffix_true. destruct (Strings.HasSuffix s suffix); naive_solver.
Qed.

Lemma drop_last_app (p : string) (c : ascii) (q : string) :
  drop_last (p +:+ String c q) =
  p +:+ substring 0 (String.length q) (String c q).
Proof.
  unfold drop_last. rewrite string_length_app. simpl String.length.
  replace (String.length p + S (String.length q) - 1)
    with (String.length p + String.length q) by lia.
  apply substring_app_l.
Qed.

Lemma string_app_assoc (a b c : string) : (a +:+ b) +:+ c = a +:+ (b +:+ c).
Proof.
  induction a as [|x a IH]; [done |].
  change (String x ((a +:+ b) +:+ c) = String x (a +:+ (b +:+ c))).
  by rewrite IH.
Qed.

(** ** Pluralization and scoping of kinds *)

Lemma map_bytes_no_upper (s : string) :
  Strings.hasUpper s = false → Strings.map_bytes Strings.lower_byte s = s.
Proof.
  unfold Strings.hasUpper. rewrite negb_false_iff.
  induction s as [|c s IH]; simpl; [done |].
  rewrite andb_true_iff, negb_true_iff. intros [Hc Hs].
  unfold Strings.lower_byte. rewrite Hc. f_equal. by apply IH.
Qed.

(** On a kind of ASCII bytes [strings.ToLower] lowers each byte. *)
Lemma ToLower_ascii `{Strings.UnicodeLower} (s : string) :
  Strings.isASCII s = true →
  Strings.ToLower s = Strings.map_bytes Strings.lower_byte s.
Proof.
  intros Hascii. unfold Strings.ToLower. rewrite Hascii.
  destruct (Strings.hasUpper s) eqn:Hup; [done |].
  symmetry. by apply map_bytes_no_upper.
Qed.

(** C6: [pluralize] lower-cases the kind, byte by byte when the kind is
    ASCII; a result ending in "s" gets "es" appended; otherwise a result
    ending in "policy" loses its final "y" and gets "ies"; otherwise "s" is
    appended.  "Service", "NetworkPolicy" and "Ingress" give "services",
    "networkpolicies" and "ingresses". *)
Theorem pluralize_rule `{Strings.UnicodeLower} (kind : string) :
  let ret := Strings.ToLower kind in
  ((∃ p, ret = p +:+ "s") → pluralize kind = ret +:+ "es") ∧
  (¬ (∃ p, ret = p +:+ "s") →
   ∀ p, ret = p +:+ "policy" → pluralize kind = p +:+ "polic" +:+ "ies") ∧
  (¬ (∃ p, ret = p +:+ "s") → ¬ (∃ p, ret = p +:+ "policy") →
   pluralize kind = ret +:+ "s") ∧
  (Strings.isASCII kind = true →
   ret = Strings.map_bytes Strings.lower_byte kind) ∧
  pluralize "Service" = "services" ∧
  pluralize "NetworkPolicy" = "networkpolicies" ∧
  pluralize "Ingress" = "ingresses".
Proof.
  intros ret. unfold pluralize. fold ret.
  split; [|split; [|split; [|split; [by apply ToLower_ascii |]]]].
  - intros Hs. apply HasSuffix_true in Hs. by rewrite Hs.
  - intros Hs p Hp. apply HasSuffix_false in Hs. rewrite Hs.
    assert (Strings.HasSuffix ret "policy" = true) as ->
      by (apply HasSuffix_true; eauto).
    rewrite Hp, drop_last_app. simpl. by rewrite string_app_assoc.
  - intros Hs Hp. apply HasSuffix_false in Hs, Hp. by rewrite Hs, Hp.
  - done.
Qed.

(** ** The reversal loop of [Delete] *)

Section Reverse.
Context {A : Type}.
Implicit Types (l pre mid post : list A).

Lemma at_index_nat l (k : nat) : at_index l (Z.of_nat k) = l !! k.
Proof.
  unfold at_index. destruct (Z.ltb_spec (Z.of_nat k) 0); [lia |].
  by rewrite Nat2Z.id.
Qed.

Lemma swap_ends pre mid post (x y : A) :
  swap (pre ++ x :: mid ++ y :: post)
       (Z.of_nat (length pre)) (Z.of_nat (length pre + S (length mid)))
  = Some (pre ++ y :: mid ++ x :: post).
Proof.
  unfold swap. rewrite !at_index_nat, !Nat2Z.id.
  assert ((pre ++ x :: mid ++ y :: post) !! length pre = Some x) as ->
    by by apply list_lookup_middle.
  assert ((pre ++ x :: mid ++ y :: post) !! (length pre + S (length mid))
          = Some y) as ->.
  { rewrite lookup_app_r by lia.
    replace (length pre + S (length mid) - length pre)
      with (S (length mid)) by lia.
    simpl. by apply list_lookup_middle. }
  simpl. f_equal.
  rewrite insert_app_r_alt by lia.
  replace (length pre - length pre) with 0 by lia. simpl.
  rewrite insert_app_r_alt by lia.
  replace (length pre + S (length mid) - length pre)
    with (S (length mid)) by lia.
  simpl. f_equal. f_equal.
  rewrite insert_app_r_alt by lia.
  replace (length mid - length mid) with 0 by lia. done.
Qed.

Lemma reverse_loop_middle (fuel : nat) : ∀ mid pre post,
  length mid ≤ fuel →
  reverse_loop fuel (Z.of_nat (length pre))
               (Z.of_nat (length pre + length mid) - 1) (pre ++ mid ++ post)
  = Some (pre ++ reverse mid ++ post).
Proof.
  induction fuel as [|fuel IH]; intros mid pre post Hfuel.
  - destruct mid; simpl in *; [|lia].
    destruct (Z.ltb_spec (Z.of_nat (length pre))
                (Z.of_nat (length pre + 0) - 1)); [lia | done].
  - destruct mid as [|x mid]; [|destruct mid as [|y mid _] using rev_ind].
    + simpl.
      destruct (Z.ltb_spec (Z.of_nat (length pre))
                  (Z.of_nat (length pre + 0) - 1)); [lia | done].
    + simpl.
      destruct (Z.ltb_spec (Z.of_nat (length pre))
                  (Z.of_nat (length pre + 1) - 1)); [lia | done].
    + simpl in Hfuel. rewrite length_app in Hfuel. simpl in Hfuel.
      cbn [reverse_loop].
      destruct (Z.ltb_spec (Z.of_nat (length pre))
                  (Z.of_nat (length pre + length (x :: mid ++ [y])) - 1))
        as [_|Hge]; [|simpl in Hge; rewrite length_app in Hge; simpl in Hge; lia].
      replace (Z.of_nat (length pre + length (x :: mid ++ [y])) - 1)%Z
        with (Z.of_nat (length pre + S (length mid)))
        by (simpl; rewrite length_app; simpl; lia).
      replace (pre ++ (x :: mid ++ [y]) ++ post)
        with (pre ++ x :: mid ++ y :: post)
        by (simpl; by rewrite <- (assoc_L (++) mid [y] post)).
      rewrite swap_ends. simpl.
      replace (pre ++ y :: mid ++ x :: post)
        with ((pre ++ [y]) ++ mid ++ (x :: post))
        by by rewrite <- (assoc_L (++) pre [y]).
      replace (Z.of_nat (length pre) + 1)%Z
        with (Z.of_nat (length (pre ++ [y])))
        by (rewrite length_app; simpl; lia).
      replace (Z.of_nat (length pre + S (length mid)) - 1)%Z
        with (Z.of_nat (length (pre ++ [y]) + length mid) - 1)%Z
        by (rewrite length_app; simpl; lia).
      rewrite IH by lia.
      f_equal. rewrite reverse_cons, reverse_app. simpl.
      rewrite <- !(assoc_L (++)). done.
Qed.

(** [len(a)] iterations are enough fuel, no index is out of range, and the
    loop leaves the array reversed. *)
Lemma reverse_loop_reverse l :
  reverse_loop (length l) 0 (Z.of_nat (length l) - 1) l = Some (reverse l).
Proof.
  pose proof (reverse_loop_middle (length l) l [] [] (le_n _)) as E.
  simpl in E. by rewrite !app_nil_r in E.
Qed.
End Reverse.

(** ** What a run of the engine leaves alone *)

Section EngineFacts.
Context `{Strings.UnicodeLower} {Σ : Type} `{DynamicInterface Σ}.

Implicit Types (st : State Σ) (spec : Unstructured) (f : YamlFile).

Lemma same_fields_refl (o : Fields) : same_fields_but_owner o o.
Proof. by repeat split. Qed.

Lemma same_fields_trans (o1 o2 o3 : Fields) :
  same_fields_but_owner o1 o2 → same_fields_but_owner o2 o3 →
  same_fields_but_owner o1 o3.
Proof. unfold same_fields_but_owner. intuition congruence. Qed.

Lemma same_fields_with_owner (refs : list OwnerReference) (o : Fields) :
  same_fields_but_owner o (with_ownerReferences refs o).
Proof. by repeat split. Qed.

Lemma objects_frame_refl st : objects_frame st st.
Proof. intros l. apply same_fields_refl. Qed.

Lemma objects_frame_trans st1 st2 st3 :
  objects_frame st1 st2 → objects_frame st2 st3 → objects_frame st1 st3.
Proof. intros F G l. eapply same_fields_trans; [apply F | apply G]. Qed.

Lemma objects_frame_eq st st' : objects st' = objects st → objects_frame st st'.
Proof. intros E l. rewrite E. apply same_fields_refl. Qed.

Lemma objects_frame_insert st st' (l : loc) (o : Fields) :
  objects st' = <[l := o]> (objects st) →
  same_fields_but_owner (objects st !!! l) o →
  objects_frame st st'.
Proof.
  intros E Ho l'. rewrite E.
  destruct (decide (l = l')) as [<-|Hne].
  - by rewrite lookup_total_insert_eq.
  - rewrite lookup_total_insert_ne by done. apply same_fields_refl.
Qed.

Lemma frame_fields st st' spec :
  objects_frame st st' →
  same_fields_but_owner (fields spec st) (fields spec st').
Proof.
  intros F. unfold fields.
  destruct (Object spec) as [l|]; [apply F | apply same_fields_refl].
Qed.

Lemma frame_client st st' spec :
  objects_frame st st' → client spec st' = client spec st.
Proof.
  intros F. unfold client, GetAPIVersion, GetKind, GetNamespace.
  destruct (frame_fields st st' spec F) as (-> & -> & -> & _). done.
Qed.

Lemma frame_GetName st st' spec :
  objects_frame st st' → GetName spec st' = GetName spec st.
Proof.
  intros F. unfold GetName.
  destruct (frame_fields st st' spec F) as (_ & _ & _ & -> & _). done.
Qed.

Lemma frame_resource_name st st' spec :
  objects_frame st st' → resource_name spec st' = resource_name spec st.
Proof.
  intros F.
  unfold resource_name, GroupVersionKind_of, GetName, GetAPIVersion, GetKind.
  destruct (frame_fields st st' spec F) as (-> & -> & _ & -> & _). done.
Qed.

Lemma frame_apply_segment st st' spec (seg : list Call) :
  objects_frame st st' → apply_segment st' spec seg → apply_segment st spec seg.
Proof.
  intros F. unfold apply_segment.
  rewrite (frame_client st st') , (frame_GetName st st') by done.
  destruct (client spec st); [|done].
  intros [->|(obj & Hobj & ->)]; [by left | right].
  exists obj. split; [|done].
  eapply same_fields_trans; [by apply frame_fields | apply Hobj].
Qed.

Lemma frame_resource_key st st' spec :
  objects_frame st st' → resource_key spec st' = resource_key spec st.
Proof.
  intros F. unfold resource_key.
  by rewrite (frame_client st st'), (frame_GetName st st').
Qed.

Lemma SetOwnerReferences_spec spec (refs : list OwnerReference) st :
  let '(spec', st') := SetOwnerReferences spec refs st in
  slices st' = slices st ∧ cluster st' = cluster st ∧
  calls st' = calls st ∧ logs st' = logs st ∧
  objects_frame st st' ∧
  fields spec' st' = with_ownerReferences refs (fields spec st).
Proof.
  unfold SetOwnerReferences. simpl.
  split; [done |]. split; [done |]. split; [done |]. split; [done |].
  split.
  - eapply objects_frame_insert; [done |]. unfold fields.
    destruct (Object spec) as [l|]; simpl.
    + apply same_fields_with_owner.
    + rewrite lookup_total_alt.
      rewrite (not_elem_of_dom_1 (objects st) _ (is_fresh _)). simpl.
      apply same_fields_with_owner.
  - unfold fields at 1. simpl. apply lookup_total_insert_eq.
Qed.

(** The iteration for a resource the existence check finds. *)
Lemma Apply_body_found (owner : OwnerReference) spec st c r :
  client spec st = inl c →
  dyn_Get c (GetName spec st) (cluster st) = (None, r) →
  Apply_body owner spec st =
  (None, remote_call (CallGet c (GetName spec st)) r st).
Proof. intros Hc Hget. unfold Apply_body, Get. by rewrite Hc, Hget. Qed.

(** The iteration for a resource the existence check does not find. *)
Lemma Apply_body_create (owner : OwnerReference) spec st c gerr r :
  client spec st = inl c →
  dyn_Get c (GetName spec st) (cluster st) = (Some gerr, r) →
  IsNotFound gerr = true →
  ∃ st',
    Apply_body owner spec st =
      (match (dyn_Create c (sent owner spec st) r).1 with
       | Some e => if IsAlreadyExists e then None else Some e
       | None => None
       end, st') ∧
    calls st' = calls st ++ [CallGet c (GetName spec st);
                             CallCreate c (sent owner spec st)] ∧
    cluster st' = (dyn_Create c (sent owner spec st) r).2 ∧
    slices st' = slices st ∧
    objects_frame st st'.
Proof.
  intros Hc Hget Hnf. unfold Apply_body, Get, sent.
  rewrite Hc, Hget, Hnf. cbn [negb].
  set (st1 := remote_call (CallGet c (GetName spec st)) r st).
  change (GetKind spec st1) with (GetKind spec st).
  destruct (isClusterScoped (GetKind spec st)) eqn:Hscope; cbn [negb];
    unfold Create.
  - change (fields spec st1) with (fields spec st).
    change (cluster st1) with r.
    destruct (dyn_Create c (fields spec st) r) as [[e|] r'] eqn:Hcreate;
      simpl; [destruct (IsAlreadyExists e) |];
      (eexists; split; [reflexivity |]; simpl;
       split; [by rewrite <- (assoc_L (++)) |];
       split; [done |]; split; [done |];
       by apply objects_frame_eq).
  - pose proof (SetOwnerReferences_spec spec [owner] st1) as Hset.
    destruct (SetOwnerReferences spec [owner] st1) as [spec' st2].
    destruct Hset as (Hsl & Hcl & Hca & Hlg & F & Hfields).
    rewrite Hfields, Hcl.
    change (fields spec st1) with (fields spec st).
    change (cluster st1) with r.
    destruct (dyn_Create c (with_ownerReferences [owner] (fields spec st)) r)
      as [[e|] r'] eqn:Hcreate;
      simpl; [destruct (IsAlreadyExists e) |];
      (eexists; split; [reflexivity |]; simpl;
       split; [by rewrite Hca; simpl; rewrite <- (assoc_L (++)) |];
       split; [done |]; split; [by rewrite Hsl |];
       intros l; apply (F l)).
Qed.

Lemma Apply_body_get_error (owner : OwnerReference) spec st c gerr r :
  client spec st = inl c →
  dyn_Get c (GetName spec st) (cluster st) = (Some gerr, r) →
  IsNotFound gerr = false →
  Apply_body owner spec st =
  (Some gerr, remote_call (CallGet c (GetName spec st)) r st).
Proof.
  intros Hc Hget Hnf. unfold Apply_body, Get. by rewrite Hc, Hget, Hnf.
Qed.

Lemma Apply_body_unresolved (owner : OwnerReference) spec st e :
  client spec st = inr e → Apply_body owner spec st = (Some e, st).
Proof. intros Hc. unfold Apply_body. by rewrite Hc. Qed.

Lemma Apply_body_spec (owner : OwnerReference) spec st err st' :
  Apply_body owner spec st = (err, st') →
  slices st' = slices st ∧ objects_frame st st' ∧
  ∃ seg, calls st' = calls st ++ seg ∧ apply_segment st spec seg ∧
         Forall (λ call, is_delete call = false) seg.
Proof.
  unfold apply_segment.
  destruct (client spec st) as [c|e] eqn:Hc.
  - destruct (dyn_Get c (GetName spec st) (cluster st)) as [[gerr|] r]
      eqn:Hget; [destruct (IsNotFound gerr) eqn:Hnf |].
    + destruct (Apply_body_create owner spec st c gerr r Hc Hget Hnf)
        as (st1 & -> & Hcalls & _ & Hsl & F).
      intros [= _ <-]. split; [done |]. split; [done |].
      eexists. split; [done |]. split; [| by repeat constructor].
      right. exists (sent owner spec st). split; [| done].
      unfold sent. destruct (isClusterScoped _);
        [apply same_fields_refl | apply same_fields_with_owner].
    + rewrite (Apply_body_get_error owner spec st c gerr r Hc Hget Hnf).
      intros [= _ <-]. split; [done |].
      split; [by apply objects_frame_eq |].
      eexists. split; [done |]. split; [by left | by repeat constructor].
    + rewrite (Apply_body_found owner spec st c r Hc Hget).
      intros [= _ <-]. split; [done |].
      split; [by apply objects_frame_eq |].
      eexists. split; [done |]. split; [by left | by repeat constructor].
  - rewrite (Apply_body_unresolved owner spec st e Hc).
    intros [= _ <-]. split; [done |]. split; [apply objects_frame_refl |].
    exists []. by rewrite app_nil_r.
Qed.

Lemma Apply_range_app (owner : OwnerReference) (pre post : list Unstructured) st :
  Apply_range owner (pre ++ post) st =
  match Apply_range owner pre st with
  | (Some err, st') => (Some err, st')
  | (None, st') => Apply_range owner post st'
  end.
Proof.
  revert st. induction pre as [|spec pre IH]; intros st; simpl.
  - by destruct (Apply_range owner post st) as [[?|] ?].
  - destruct (Apply_body owner spec st) as [[e|] st1]; [done | apply IH].
Qed.

Lemma Apply_range_spec (owner : OwnerReference) (rs : list Unstructured) :
  ∀ st err st',
  Apply_range owner rs st = (err, st') →
  slices st' = slices st ∧ objects_frame st st' ∧
  ∃ (n : nat) (segs : list (list Call)),
    calls st' = calls st ++ concat segs ∧
    Forall2 (apply_segment st) (take n rs) segs ∧
    Forall (λ call, is_delete call = false) (concat segs) ∧
    (err = None → n = length rs).
Proof.
  induction rs as [|spec rest IH]; intros st err st' Hrun; simpl in Hrun.
  - injection Hrun as <- <-. split; [done |].
    split; [apply objects_frame_refl |].
    exists 0, []. simpl. by rewrite app_nil_r.
  - destruct (Apply_body owner spec st) as [berr st1] eqn:Hbody.
    apply Apply_body_spec in Hbody as (Hsl & Hfr & seg & Hcalls & Hseg & Hnd).
    destruct berr as [e|].
    + injection Hrun as <- <-. split; [done |]. split; [done |].
      exists 1, [seg]. simpl. rewrite take_0, app_nil_r.
      repeat split; [done | by repeat constructor | done | done].
    + apply IH in Hrun
        as (Hsl' & Hfr' & n & segs & Hcalls' & Hsegs & Hnd' & Hlen).
      split; [congruence |].
      split; [by eapply objects_frame_trans |].
      exists (S n), (seg :: segs). simpl.
      split; [by rewrite Hcalls', Hcalls, <- (assoc_L (++)) |].
      split; [constructor; [done |] |].
      { eapply Forall2_impl; [apply Hsegs |].
        intros ? ?. by apply frame_apply_segment. }
      split; [by apply Forall_app |].
      intros E. simpl. f_equal. by apply Hlen.
Qed.

Lemma client_resolution spec st :
  client spec st =
  match ParseGroupVersion (GetAPIVersion spec st) with
  | inr err => inr err
  | inl gv =>
      inl (if String.eqb (GetNamespace spec st) ""
           then Resource (WithResource gv (pluralize (GetKind spec st)))
           else Namespace
                  (Resource (WithResource gv (pluralize (GetKind spec st))))
                  (GetNamespace spec st))
  end.
Proof.
  unfold client. destruct (ParseGroupVersion _); [|done].
  by destruct (String.eqb _ _).
Qed.

Lemma Delete_body_spec spec st :
  ∃ st', slices st' = slices st ∧ objects st' = objects st ∧
  match client spec st with
  | inr err => Delete_body spec st = (Some err, st') ∧ calls st' = calls st
  | inl c =>
      Delete_body spec st = (None, st') ∧
      calls st' = calls st ++ [CallDelete c (GetName spec st)]
  end.
Proof.
  unfold Delete_body, Delete_call.
  destruct (client spec st) as [c|e]; [|by exists st].
  simpl. destruct (dyn_Delete _ _ _) as [derr r].
  eexists. split; [|split; [|split; [reflexivity |]]]; done.
Qed.

Lemma frame_issued_deletes st st' (a : list Unstructured) :
  objects_frame st st' → issued_deletes a st' = issued_deletes a st.
Proof.
  intros F. induction a as [|spec a IH]; simpl; [done |].
  rewrite (frame_client st st'), (frame_GetName st st'), IH by done. done.
Qed.

Lemma frame_resolution_error st st' (a : list Unstructured) :
  objects_frame st st' → resolution_error a st' = resolution_error a st.
Proof.
  intros F. induction a as [|spec a IH]; simpl; [done |].
  rewrite IH. unfold GetAPIVersion.
  destruct (frame_fields st st' spec F) as (-> & _). done.
Qed.

Lemma Delete_range_spec (a : list Unstructured) : ∀ st,
  ∃ st', Delete_range a st = (resolution_error a st, st') ∧
         slices st' = slices st ∧ objects st' = objects st ∧
         calls st' = calls st ++ issued_deletes a st.
Proof.
  induction a as [|spec a IH]; intros st; simpl.
  - exists st. by rewrite app_nil_r.
  - destruct (Delete_body_spec spec st) as (st1 & Hsl & Hob & Hbody).
    rewrite client_resolution in Hbody. rewrite client_resolution.
    destruct (ParseGroupVersion (GetAPIVersion spec st)) as [gv|e].
    + destruct Hbody as [-> Hcalls].
      destruct (IH st1) as (st' & -> & Hsl' & Hob' & Hcalls').
      pose proof (objects_frame_eq st st1 Hob) as F.
      rewrite (frame_resolution_error st st1), (frame_issued_deletes st st1)
        in * by done.
      exists st'. split; [done |]. split; [congruence |].
      split; [congruence |].
      by rewrite Hcalls', Hcalls, <- (assoc_L (++)).
    + destruct Hbody as [-> Hcalls]. exists st1.
      by rewrite app_nil_r.
Qed.

Lemma copy_list_replicate {A} (src : list A) (z : A) :
  copy_list (replicate (length src) z) src = src.
Proof.
  unfold copy_list. rewrite length_replicate, firstn_all.
  rewrite drop_ge by (by rewrite length_replicate). apply app_nil_r.
Qed.

(** [Delete] never panics: it ranges over a reversed copy held in a fresh
    backing array. *)
Lemma Delete_eq f st :
  Delete f st =
  Some (Delete_range (reverse (slices st !!! resources f))
          (set_slices
             (<[fresh (dom (slices st)) := reverse (slices st !!! resources f)]>
                (slices st)) st)).
Proof.
  unfold Delete, make, copy, reverse_in_place. simpl.
  rewrite !lookup_total_insert_eq, copy_list_replicate, reverse_loop_reverse.
  simpl. rewrite lookup_total_insert_eq, !insert_insert_eq. done.
Qed.

Lemma issued_deletes_resolved (a : list Unstructured) st :
  resolution_error a st = None →
  Forall2 (λ spec call, delete_request spec st = Some call)
          a (issued_deletes a st).
Proof.
  induction a as [|spec a IH]; simpl; [constructor |].
  pose proof (client_resolution spec st) as Hc.
  destruct (ParseGroupVersion (GetAPIVersion spec st)); [|done].
  rewrite Hc. intros Hrest. constructor; [| by apply IH].
  unfold delete_request. by rewrite Hc.
Qed.

Lemma resolution_error_elem (a : list Unstructured) st (e : error) :
  resolution_error a st = Some e →
  ∃ spec, spec ∈ a ∧ ParseGroupVersion (GetAPIVersion spec st) = inr e.
Proof.
  induction a as [|spec a IH]; simpl; [done |].
  destruct (ParseGroupVersion (GetAPIVersion spec st)) as [gv|e'] eqn:E.
  - intros (spec' & Hin & Hp)%IH. exists spec'. split; [by right | done].
  - intros [= ->]. exists spec. split; [by left | done].
Qed.

Lemma resolution_error_None (a : list Unstructured) st :
  resolution_error a st = None ↔ Forall (resolves st) a.
Proof.
  induction a as [|spec a IH]; simpl; [by split; [constructor |] |].
  rewrite Forall_cons, <- IH. unfold resolves.
  rewrite client_resolution.
  destruct (ParseGroupVersion _).
  - split; [by split; [eexists |] | by intros []].
  - split; [done | by intros [[? [=]] _]].
Qed.
End EngineFacts.

(** ** [Delete] *)

Section DeleteClaims.
Context `{Strings.UnicodeLower} {Σ : Type} `{DynamicInterface Σ}.

Implicit Types (st : State Σ) (spec : Unstructured) (f : YamlFile).

Lemma Delete_spec f st :
  ∃ st', Delete f st =
           Some (resolution_error (reverse (slices st !!! resources f)) st, st') ∧
         slices st' =
           <[fresh (dom (slices st)) := reverse (slices st !!! resources f)]>
             (slices st) ∧
         objects st' = objects st ∧
         calls st' =
           calls st ++ issued_deletes (reverse (slices st !!! resources f)) st.
Proof.
  rewrite Delete_eq.
  set (a := reverse (slices st !!! resources f)).
  set (st0 := set_slices _ st).
  destruct (Delete_range_spec a st0) as (st' & Hrun & Hsl & Hob & Hcalls).
  assert (objects_frame st st0) as F by by apply objects_frame_eq.
  rewrite (frame_resolution_error st st0) in Hrun by done.
  rewrite (frame_issued_deletes st st0) in Hcalls by done.
  exists st'. by rewrite Hrun.
Qed.

Lemma fresh_slice_ne f st : live f st → fresh (dom (slices st)) ≠ resources f.
Proof.
  intros Hlive E. apply (is_fresh (dom (slices st))).
  rewrite E. by apply elem_of_dom.
Qed.

(** C5: whatever the remote side answers to the delete requests, [Delete]
    issues one for every resource, in reverse order, and returns [nil];
    the only error it returns is the one [schema.ParseGroupVersion] gives
    for the [apiVersion] of a resource, which ends the call. *)
Theorem Delete_swallows_remote_errors f st :
  let rs := slices st !!! resources f in
  ∃ st',
    Delete f st = Some (resolution_error (reverse rs) st, st') ∧
    calls st' = calls st ++ issued_deletes (reverse rs) st ∧
    (Forall (resolves st) rs →
     resolution_error (reverse rs) st = None ∧
     Forall2 (λ spec call, delete_request spec st = Some call)
             (reverse rs) (issued_deletes (reverse rs) st)) ∧
    (∀ e, resolution_error (reverse rs) st = Some e →
          ∃ spec, spec ∈ rs ∧
                  ParseGroupVersion (GetAPIVersion spec st) = inr e).
Proof.
  intros rs. destruct (Delete_spec f st) as (st' & Hrun & _ & _ & Hcalls).
  exists st'. split; [done |]. split; [done |]. split.
  - intros Hall.
    assert (resolution_error (reverse rs) st = None) as Hnone
      by by apply resolution_error_None, Forall_reverse.
    split; [done | by apply issued_deletes_resolved].
  - intros e (spec & Hin & Hp)%resolution_error_elem.
    exists spec. split; [by apply elem_of_reverse | done].
Qed.

(** C10: [Delete] reverses a copy held in a backing array of its own; in
    every state where the slice [f.resources] is allocated, as it is from
    [NewYamlFile] on, the array behind it and the field maps are after
    [Delete] as before, so [ResourceNames] and a later [Apply] see the
    resources in parse order. *)
Theorem Delete_leaves_resources f st :
  live f st →
  ∃ err st',
    Delete f st = Some (err, st') ∧
    slices st' !! resources f = slices st !! resources f ∧
    objects st' = objects st ∧
    ResourceNames f st' = ResourceNames f st ∧
    ∀ owner, Apply f owner st' =
             Apply_range owner (slices st !!! resources f) st'.
Proof.
  intros Hlive.
  destruct (Delete_spec f st) as (st' & Hrun & Hsl & Hob & _).
  assert (slices st' !! resources f = slices st !! resources f) as Hsame
    by (rewrite Hsl; by apply lookup_insert_ne, fresh_slice_ne).
  assert (slices st' !!! resources f = slices st !!! resources f) as Htot
    by by rewrite !lookup_total_alt, Hsame.
  eexists _, st'. split; [done |]. split; [done |]. split; [done |].
  split.
  - unfold ResourceNames. rewrite Htot. apply list_fmap_ext.
    intros _ spec _. by apply frame_resource_name, objects_frame_eq.
  - intros owner. unfold Apply. by rewrite Htot.
Qed.
End DeleteClaims.

(** ** Order of the remote calls *)

Section Order.
Context `{Strings.UnicodeLower} {Σ : Type} `{DynamicInterface Σ}.

Implicit Types (st : State Σ) (spec : Unstructured) (f : YamlFile).

Lemma calls_since_app st st' (new : list Call) :
  calls st' = calls st ++ new → calls_since st st' = new.
Proof. intros E. unfold calls_since. rewrite E. apply drop_app_length. Qed.


End Order.

(** ** [Apply] *)

Section ApplyClaims.
Context `{Strings.UnicodeLower} {Σ : Type} `{DynamicInterface Σ}.

Implicit Types (st : State Σ) (spec : Unstructured) (f : YamlFile).

Lemma Apply_range_calls (owner : OwnerReference) (rs : list Unstructured) st :
  ∃ more, calls (Apply_range owner rs st).2 = calls st ++ more ∧
          Forall (λ call, is_delete call = false) more.
Proof.
  destruct (Apply_range owner rs st) as [err st'] eqn:Hrun.
  apply Apply_range_spec in Hrun as (_ & _ & n & segs & Hcalls & _ & Hnd & _).
  by exists (concat segs).
Qed.

Lemma Apply_range_None_resolves (owner : OwnerReference)
    (rs : list Unstructured) : ∀ st st',
  Apply_range owner rs st = (None, st') → Forall (resolves st) rs.
Proof.
  induction rs as [|spec rest IH]; intros st st' Hrun; [constructor |].
  simpl in Hrun.
  destruct (Apply_body owner spec st) as [[e|] st1] eqn:Hbody; [done |].
  constructor.
  - unfold resolves. unfold Apply_body in Hbody.
    destruct (client spec st); [by eexists | done].
  - apply Apply_body_spec in Hbody as (_ & F & _).
    eapply Forall_impl; [by eapply IH |].
    intros spec' Hres. unfold resolves in *.
    by rewrite <- (frame_client st st1).
Qed.



(** C3: when the create of the resource after [pre] fails, and not with
    already-exists, [Apply] returns that error at once: the resources of
    [pre] had their calls, in order, the failed create is the last remote
    call, no delete request was issued, and the remote side is as the
    failed create left it.  When the create fails with already-exists the
    loop goes on with the resources after it. *)
Theorem partial_failure_containment (owner : OwnerReference)
    (pre post : list Unstructured) spec st0 c gerr cerr :
  let st := (Apply_range owner pre st0).2 in
  let r := (dyn_Get c (GetName spec st) (cluster st)).2 in
  (Apply_range owner pre st0).1 = None →
  client spec st = inl c →
  (dyn_Get c (GetName spec st) (cluster st)).1 = Some gerr →
  IsNotFound gerr = true →
  (dyn_Create c (sent owner spec st) r).1 = Some cerr →
  ∃ st',
    calls st' = calls st ++ [CallGet c (GetName spec st);
                             CallCreate c (sent owner spec st)] ∧
    cluster st' = (dyn_Create c (sent owner spec st) r).2 ∧
    (∃ segs, calls st = calls st0 ++ concat segs ∧
             Forall2 (apply_segment st0) pre segs) ∧
    Forall (resolves st0) pre ∧
    Forall (λ call, is_delete call = false) (calls_since st0 st') ∧
    (IsAlreadyExists cerr = false →
     Apply_range owner (pre ++ spec :: post) st0 = (Some cerr, st')) ∧
    (IsAlreadyExists cerr = true →
     Apply_range owner (pre ++ spec :: post) st0 =
     Apply_range owner post st').
Proof.
  intros st r Hfst Hc Hget1 Hnf Hcreate.
  assert (Apply_range owner pre st0 = (None, st)) as Hpre
    by (unfold st; destruct (Apply_range owner pre st0); simpl in *; congruence).
  clearbody st. clear Hfst.
  assert (dyn_Get c (GetName spec st) (cluster st) = (Some gerr, r)) as Hget
    by (unfold r; destruct (dyn_Get c _ _); simpl in *; congruence).
  clearbody r. clear Hget1.
  destruct (Apply_body_create owner spec st c gerr r Hc Hget Hnf)
    as (st1 & Hbody & Hcalls & Hcl & _).
  rewrite Hcreate in Hbody.
  pose proof (Apply_range_None_resolves _ _ _ _ Hpre) as Hres.
  pose proof Hpre as Hspec.
  apply Apply_range_spec in Hspec
    as (_ & _ & n & segs & Hpcalls & Hsegs & Hnd & Hlen).
  rewrite Hlen, firstn_all in Hsegs by done.
  exists st1. split; [done |]. split; [done |].
  split; [by exists segs |]. split; [done |]. split.
  - rewrite (calls_since_app st0 st1 (concat segs ++
      [CallGet c (GetName spec st); CallCreate c (sent owner spec st)])).
    + apply Forall_app. split; [done | by repeat constructor].
    + by rewrite Hcalls, Hpcalls, <- (assoc_L (++)).
  - split; intros Hexists; rewrite Hexists in Hbody;
      rewrite Apply_range_app, Hpre; simpl; by rewrite Hbody.
Qed.

Lemma owners_kept_refl (owners : list OwnerReference) st :
  owners_kept owners st st.
Proof. intros l. by left. Qed.

Lemma owners_kept_eq (owners : list OwnerReference) st st' :
  objects st' = objects st → owners_kept owners st st'.
Proof. intros E l. left. by rewrite E. Qed.

Lemma owners_kept_trans (owners1 owners2 : list OwnerReference) st1 st2 st3 :
  owners_kept owners1 st1 st2 → owners_kept owners2 st2 st3 →
  owners_kept (owners1 ++ owners2) st1 st3.
Proof.
  intros H12 H23 l.
  destruct (H23 l) as [E|(owner & Hin & E)].
  - rewrite E. destruct (H12 l) as [E'|(owner & Hin & E')]; [by left |].
    right. exists owner. split; [| done]. apply elem_of_app. by left.
  - right. exists owner. split; [| done]. apply elem_of_app. by right.
Qed.

(** One iteration of [Apply] writes no owner reference but the caller's. *)
Lemma Apply_body_owners (owner : OwnerReference) spec st :
  owners_kept [owner] st (Apply_body owner spec st).2.
Proof.
  unfold Apply_body.
  destruct (client spec st) as [c|e]; [| apply owners_kept_refl].
  unfold Get. destruct (dyn_Get _ _ _) as [[gerr|] r]; cbv beta iota;
    [| by apply owners_kept_eq].
  destruct (IsNotFound gerr); cbn [negb]; [| by apply owners_kept_eq].
  set (st1 := remote_call (CallGet c (GetName spec st)) r st).
  assert (owners_kept [owner] st
            (if negb (isClusterScoped (GetKind spec st1))
             then SetOwnerReferences spec [owner] st1
             else (spec, st1)).2) as Hset.
  { destruct (isClusterScoped _); simpl; [by apply owners_kept_eq |].
    intros l.
    destruct (decide (l = default (fresh (dom (objects st))) (Object spec)))
      as [->|Hne].
    - right. exists owner. split; [by apply list_elem_of_singleton |].
      change (objects (set_objects ?m _)) with m.
      by rewrite lookup_total_insert_eq.
    - left. change (objects (set_objects ?m _)) with m.
      by rewrite lookup_total_insert_ne. }
  destruct (if negb (isClusterScoped (GetKind spec st1))
            then SetOwnerReferences spec [owner] st1
            else (spec, st1)) as [spec' st2].
  simpl in Hset. unfold Create. cbv zeta.
  destruct (dyn_Create c _ _) as [[cerr|] r']; cbv beta iota;
    [destruct (IsAlreadyExists cerr) |]; intros l; apply (Hset l).
Qed.

Lemma Apply_range_owners (owner : OwnerReference) (rs : list Unstructured) :
  ∀ st, owners_kept [owner] st (Apply_range owner rs st).2.
Proof.
  induction rs as [|spec rest IH]; intros st; simpl;
    [apply owners_kept_refl |].
  pose proof (Apply_body_owners owner spec st) as H1.
  destruct (Apply_body owner spec st) as [[e|] st1]; simpl in *; [done |].
  intros l. destruct (owners_kept_trans _ _ _ _ _ H1 (IH st1) l)
    as [E|(o & Hin & E)]; [by left |].
  right. exists o. split; [| done].
  apply elem_of_app in Hin as [Hin|Hin]; done.
Qed.

(** C8: whatever sequence of [Apply] and [Delete] calls is made on a
    [YamlFile] whose slice is allocated, as it is from [NewYamlFile] on,
    the run does not panic, the backing array of [f.resources] holds the
    same resources in the same order, and every field map agrees with what
    it was on every field but [ownerReferences]; that list is what it
    was, or holds the one owner reference a call of [Apply] supplied,
    which the engine keeps. *)
Theorem engine_frame (ops : list Op) f st :
  live f st →
  ∃ st',
    run ops f st = Some st' ∧
    slices st' !! resources f = slices st !! resources f ∧
    (∀ l : loc,
       same_fields_but_owner (objects st !!! l) (objects st' !!! l)) ∧
    (∀ (i : nat) spec,
       (slices st !!! resources f) !! i = Some spec →
       (slices st' !!! resources f) !! i = Some spec ∧
       same_fields_but_owner (fields spec st) (fields spec st')) ∧
    owners_kept (supplied ops) st st'.
Proof.
  intros Hlive.
  cut (∃ st', run ops f st = Some st' ∧
              slices st' !! resources f = slices st !! resources f ∧
              objects_frame st st' ∧
              owners_kept (supplied ops) st st').
  { intros (st' & Hrun & Hsl & F & Hown). exists st'.
    split; [done |]. split; [done |]. split; [done |].
    split; [| done].
    intros i spec Hi. rewrite !lookup_total_alt, Hsl in *.
    split; [done | by apply frame_fields]. }
  revert st Hlive. induction ops as [|[owner|] ops IH]; intros st Hlive; simpl.
  - exists st. split; [done |]. split; [done |].
    split; [apply objects_frame_refl | apply owners_kept_refl].
  - pose proof (Apply_range_owners owner (slices st !!! resources f) st)
      as Hown. fold (Apply f owner st) in Hown.
    destruct (Apply f owner st) as [err st1] eqn:Happly. simpl in *.
    apply Apply_range_spec in Happly as (Hsl & F & _).
    destruct (IH st1) as (st' & Hrun & Hsl' & F' & Hown').
    { unfold live. by rewrite Hsl. }
    exists st'. split; [done |]. split; [by rewrite Hsl', Hsl |].
    split; [by eapply objects_frame_trans |].
    apply (owners_kept_trans [owner] (supplied ops) st st1 st' Hown Hown').
  - destruct (Delete_spec f st) as (st1 & -> & Hsl & Hob & _). simpl.
    assert (slices st1 !! resources f = slices st !! resources f) as Hsame
      by (rewrite Hsl; by apply lookup_insert_ne, fresh_slice_ne).
    destruct (IH st1) as (st' & Hrun & Hsl' & F' & Hown').
    { unfold live. by rewrite Hsame. }
    exists st'. split; [done |]. split; [by rewrite Hsl', Hsame |].
    split; [eapply objects_frame_trans; [by apply objects_frame_eq | done] |].
    apply (owners_kept_trans [] (supplied ops) st st1 st');
      [by apply owners_kept_eq | done].
Qed.
End ApplyClaims.

(** ** The parser *)

Section ParserClaims.
Context `{Files} `{YAMLDecoder} {Σ : Type}.

Implicit Types (st : State Σ).

Lemma chunks_S (manifests : nat → string * option error) (i n : nat) :
  chunks manifests i (S n) = (manifests i).1 :: chunks manifests (S i) n.
Proof.
  unfold chunks. simpl. rewrite Nat.add_0_r. f_equal.
  rewrite <- fmap_S_seq, <- list_fmap_compose. apply list_fmap_ext.
  intros _ j _. simpl. by rewrite Nat.add_succ_r.
Qed.

(** The loop of [read] ends when a call of [Read] returns [io.EOF], and
    then has sent the chunks of the calls before that one. *)
Lemma read_loop_ends (manifests : nat → string * option error) (n : nat) :
  ∀ fuel i,
  (manifests (i + n)).2 = Some EOF →
  (∀ j, j < n → (manifests (i + j)).2 ≠ Some EOF) →
  read_loop fuel manifests i
  = if decide (n < fuel) then Some (chunks manifests i n) else None.
Proof.
  induction n as [|n IH]; intros fuel i Hend Hbefore.
  - rewrite Nat.add_0_r in Hend. destruct fuel as [|fuel]; simpl; [done |].
    destruct (manifests i) as [b err]. simpl in Hend. subst err.
    by rewrite decide_True.
  - destruct fuel as [|fuel]; simpl; [done |].
    pose proof (Hbefore 0 ltac:(lia)) as Hfirst.
    rewrite Nat.add_0_r in Hfirst. rewrite chunks_S.
    destruct (manifests i) as [b err] eqn:Hi. simpl in Hfirst.
    rewrite decide_False by done.
    rewrite (IH fuel (S i)).
    + destruct (decide (n < fuel)), (decide (S n < S fuel)); simpl;
        try done; lia.
    + by replace (S i + n) with (i + S n) by lia.
    + intros j Hj. replace (S i + j) with (i + S j) by lia.
      apply Hbefore. lia.
Qed.

(** With no [io.EOF] the loop goes on whatever the fuel. *)
Lemma read_loop_endless (manifests : nat → string * option error) :
  (∀ j, (manifests j).2 ≠ Some EOF) →
  ∀ fuel i, read_loop fuel manifests i = None.
Proof.
  intros Hnever. induction fuel as [|fuel IH]; intros i; simpl; [done |].
  pose proof (Hnever i) as Hi.
  destruct (manifests i) as [b err]. simpl in Hi.
  rewrite decide_False by done. by rewrite IH.
Qed.

(** What the loop has seen when it ends. *)
Lemma read_loop_Some (manifests : nat → string * option error) :
  ∀ fuel i sent,
  read_loop fuel manifests i = Some sent →
  (manifests (i + length sent)).2 = Some EOF ∧
  (∀ j, j < length sent → (manifests (i + j)).2 ≠ Some EOF) ∧
  sent = chunks manifests i (length sent) ∧
  length sent < fuel.
Proof.
  induction fuel as [|fuel IH]; intros i sent; simpl; [done |].
  destruct (manifests i) as [b err] eqn:Hi.
  destruct (decide (err = Some EOF)) as [->|Hne].
  - intros [= <-]. simpl. rewrite Nat.add_0_r, Hi.
    split; [done |]. split; [intros; lia |]. split; [done | lia].
  - destruct (read_loop fuel manifests (S i)) as [rest|] eqn:Hrest;
      simpl; [| done].
    intros [= <-]. destruct (IH _ _ Hrest) as (Hend & Hbefore & Hsent & Hlt).
    simpl. split; [by replace (i + S (length rest))
                     with (S i + length rest) by lia |].
    split.
    { intros [|j] Hj; [by rewrite Nat.add_0_r, Hi |].
      replace (i + S j) with (S i + j) by lia. apply Hbefore. lia. }
    split; [| lia].
    rewrite chunks_S, Hi. simpl. by f_equal.
Qed.

(** [read] on a file that opens: it ends when a call of [Read] returns
    [io.EOF], and not otherwise. *)
Lemma read_ends (fuel : nat) (path : string) (file : File) (n : nat) :
  os_Open path = Some file →
  ends_at (file_Read file (buffer file)) n →
  read fuel path
  = if decide (n < fuel)
    then Returned (chunks (file_Read file (buffer file)) 0 n)
    else Unfinished.
Proof.
  intros Hopen [Hend Hbefore]. unfold read. rewrite Hopen.
  rewrite (read_loop_ends _ n) by done. by destruct (decide (n < fuel)).
Qed.

Lemma read_endless (fuel : nat) (path : string) (file : File) :
  os_Open path = Some file →
  (∀ i, (file_Read file (buffer file) i).2 ≠ Some EOF) →
  read fuel path = Unfinished.
Proof.
  intros Hopen Hnever. unfold read. rewrite Hopen.
  by rewrite read_loop_endless.
Qed.

(** More fuel does not change what [read] returned. *)
Lemma read_more_fuel (fuel more : nat) (path : string) (docs : list string) :
  read fuel path = Returned docs → read (fuel + more) path = Returned docs.
Proof.
  unfold read. destruct (os_Open path) as [file|]; [| done].
  destruct (read_loop fuel _ 0) as [sent|] eqn:Hloop; [| done].
  intros [= <-].
  destruct (read_loop_Some _ _ _ _ Hloop) as (Hend & Hbefore & Hsent & Hlt).
  rewrite (read_loop_ends _ (length sent)) by done.
  rewrite decide_True by lia. by rewrite <- Hsent.
Qed.

(** The documents that decode to an object have a kind, and an
    [apiVersion] that parses. *)
Lemma Decode_object (buf : string) (o : Fields) :
  Decode buf = inl (Some o) →
  f_kind o ≠ "" ∧ ∃ gv, ParseGroupVersion (f_apiVersion o) = inl gv.
Proof.
  unfold Decode. destruct (yaml_to_json buf) as [err| |json o']; [done.. |].
  unfold UnmarshalJSON, Fields_GroupVersionKind.
  destruct (ParseGroupVersion (f_apiVersion o')) as [gv|e] eqn:Hgv;
    simpl.
  - destruct (f_kind o') as [|c k] eqn:Hkind; simpl; [done |].
    intros [= <-]. rewrite Hkind. split; [done | by eexists].
  - done.
Qed.

Lemma decoded_object (input : list string) (o : Fields) :
  Some o ∈ decoded input →
  f_kind o ≠ "" ∧ ∃ gv, ParseGroupVersion (f_apiVersion o) = inl gv.
Proof.
  unfold decoded. intros (buf & _ & Hbuf)%list_elem_of_omap.
  apply (Decode_object buf).
  destruct (Decode buf) as [d|]; by simplify_eq.
Qed.

Lemma made_of_weaken st st' spec (d : option Fields) :
  objects st ⊆ objects st' → made_of st spec d → made_of st' spec d.
Proof.
  intros Hsub. destruct d as [o|]; simpl; [| done].
  intros (l & Hl & Ho). exists l. split; [done |].
  by eapply lookup_weaken.
Qed.

Lemma decode_spec (input : list string) : ∀ st,
  ∃ rs st',
    decode input st = (rs, st') ∧
    objects st ⊆ objects st' ∧
    Forall2 (made_of st') rs (decoded input) ∧
    Forall (λ l, objects st !! l = None) (omap Object rs) ∧
    NoDup (omap Object rs) ∧
    logs st' = logs st ++ warnings input ∧
    slices st' = slices st ∧ cluster st' = cluster st ∧ calls st' = calls st.
Proof.
  induction input as [|buf rest IH]; intros st; simpl.
  - exists [], st. rewrite app_nil_r.
    repeat split; try done; constructor.
  - unfold decoded, warnings. simpl. fold (decoded rest) (warnings rest).
    destruct (Decode buf) as [[o|]|err].
    + assert (objects st !! fresh (dom (objects st)) = None) as Hfresh
        by apply not_elem_of_dom, is_fresh.
      unfold new_object.
      set (l := fresh (dom (objects st))) in *.
      set (st1 := set_objects (<[l := o]> (objects st)) st).
      assert (objects st1 = <[l := o]> (objects st)) as Hob by done.
      assert (logs st1 = logs st ∧ slices st1 = slices st ∧
              cluster st1 = cluster st ∧ calls st1 = calls st)
        as (Hlg & Hsl & Hcl & Hca) by done.
      clearbody st1 l.
      destruct (IH st1) as (rs & st' & -> & Hsub & Hall & Hnew' & Hnd &
                            Hlogs & Hsl' & Hcl' & Hca').
      assert (objects st ⊆ objects st1) as Hsub1
        by (rewrite Hob; by apply insert_subseteq).
      exists ({| Object := Some l |} :: rs), st'. split; [done |].
      split; [by etrans |].
      split.
      { constructor; [| done]. exists l. split; [done |].
        eapply lookup_weaken; [| apply Hsub]. rewrite Hob.
        apply lookup_insert_eq. }
      split.
      { simpl. constructor; [done |].
        eapply Forall_impl; [apply Hnew' |]. intros l' Hnone.
        eapply lookup_weaken_None; [apply Hnone | done]. }
      split.
      { simpl. constructor; [| done]. intros Hin.
        rewrite Forall_forall in Hnew'. specialize (Hnew' _ Hin).
        rewrite Hob, lookup_insert_eq in Hnew'. done. }
      split; [congruence |]. split; [congruence |].
      split; congruence.
    + destruct (IH st) as (rs & st' & -> & Hsub & Hall & Hnew' & Hnd &
                           Hlogs & Hsl' & Hcl' & Hca').
      exists ({| Object := None |} :: rs), st'. split; [done |].
      split; [done |]. split; [by constructor |].
      repeat split; done.
    + destruct (decide (err ≠ EOF)) as [Hne|Heq].
      * destruct (IH (log_entry
                        (LogError err "Unable to decode YAML; ignoring") st))
          as (rs & st' & -> & Hsub & Hall & Hnew' & Hnd &
              Hlogs & Hsl' & Hcl' & Hca').
        exists rs, st'. repeat split; try done.
        rewrite Hlogs. simpl. by rewrite <- (assoc_L (++)).
      * destruct (IH st)
          as (rs & st' & -> & Hsub & Hall & Hnew' & Hnd &
              Hlogs & Hsl' & Hcl' & Hca').
        exists rs, st'. repeat split; done.
Qed.


(** The engine [NewYamlFile] builds holds an allocated slice. *)
Lemma NewYamlFile_live (fuel : nat) (path : string) st f st' :
  NewYamlFile fuel path st = Returned (f, st') →
  is_Some (slices st' !! resources f).
Proof.
  unfold NewYamlFile.
  destruct (parse fuel path _) as [[result st1]| |]; simpl; [| done..].
  intros [= <- <-]. simpl. rewrite lookup_insert_eq. by eexists.
Qed.
End ParserClaims.

(** ** [Apply] against the object store *)

Section StoreClaims.
Context `{Strings.UnicodeLower}.

Implicit Types (st : State Cluster) (spec : Unstructured) (f : YamlFile)
  (k : Key) (ks : list Key) (seen : gset Key).

Lemma elem_of_first_occurrences ks : ∀ seen k,
  k ∈ first_occurrences ks seen ↔ k ∈ ks ∧ k ∉ seen.
Proof.
  induction ks as [|k' ks IH]; intros seen k; simpl.
  - rewrite elem_of_nil. tauto.
  - destruct (decide (k' ∈ seen)) as [Hin|Hout].
    + rewrite IH, elem_of_cons. split; [tauto |].
      intros [[->|?] ?]; tauto.
    + rewrite !elem_of_cons, IH. split.
      * intros [->|[? ?]]; [tauto |]. split; [tauto | set_solver].
      * intros [[->|?] ?]; [tauto |].
        destruct (decide (k = k')) as [->|?]; [tauto |].
        right. split; [done | set_solver].
Qed.

Lemma NoDup_first_occurrences ks : ∀ seen, NoDup (first_occurrences ks seen).
Proof.
  induction ks as [|k ks IH]; intros seen; simpl; [constructor |].
  destruct (decide (k ∈ seen)); [apply IH |].
  constructor; [| apply IH].
  rewrite elem_of_first_occurrences. set_solver.
Qed.

Lemma first_occurrences_seen ks seen :
  (∀ k, k ∈ ks → k ∈ seen) → first_occurrences ks seen = [].
Proof.
  induction ks as [|k ks IH]; intros Hall; simpl; [done |].
  destruct (decide (k ∈ seen)) as [?|Hout].
  - apply IH. intros k' ?. apply Hall. by right.
  - destruct Hout. apply Hall. by left.
Qed.

Lemma sent_name (owner : OwnerReference) spec st :
  f_name (sent owner spec st) = GetName spec st.
Proof. unfold sent. by destruct (isClusterScoped _). Qed.

(** One iteration against a store that rejects nothing. *)
Lemma Apply_body_store (owner : OwnerReference) spec st k :
  rejected (cluster st) = ∅ →
  resource_key spec st = Some k →
  ∃ st',
    Apply_body owner spec st = (None, st') ∧
    slices st' = slices st ∧ objects_frame st st' ∧
    rejected (cluster st') = ∅ ∧
    dom (stored (cluster st')) = {[k]} ∪ dom (stored (cluster st)) ∧
    (k ∈ dom (stored (cluster st)) → cluster st' = cluster st) ∧
    ∃ new, calls st' = calls st ++ new ∧
           omap created_key new =
             if decide (k ∈ dom (stored (cluster st))) then [] else [k].
Proof.
  intros Hrej Hkey. unfold resource_key in Hkey.
  destruct (client spec st) as [c|] eqn:Hc; [| done].
  injection Hkey as <-.
  set (k := key_of c (GetName spec st)).
  destruct (stored (cluster st) !! k) as [o|] eqn:Hk.
  - assert (k ∈ dom (stored (cluster st))) as Hin
      by (apply elem_of_dom; by eexists).
    exists (remote_call (CallGet c (GetName spec st)) (cluster st) st).
    split.
    { unfold Apply_body, Get. rewrite Hc. simpl. fold k. by rewrite Hk. }
    simpl. split; [done |]. split; [by apply objects_frame_eq |].
    split; [done |]. split; [set_solver |]. split; [done |].
    eexists. split; [done |]. simpl. by destruct (decide _).
  - assert (k ∉ dom (stored (cluster st))) as Hout
      by by apply not_elem_of_dom.
    destruct (Apply_body_create owner spec st c
                (StatusError StatusReasonNotFound) (cluster st))
      as (st' & Hbody & Hcalls & Hcl & Hsl & F); [done | | done |].
    { simpl. fold k. by rewrite Hk. }
    assert (dyn_Create c (sent owner spec st) (cluster st) =
            (None, mkCluster (<[k := sent owner spec st]>
                                (stored (cluster st)))
                             (rejected (cluster st)))) as Hcreate.
    { simpl. rewrite sent_name. fold k. rewrite Hrej.
      destruct (decide (k ∈ (∅ : gset Key))) as [Hbad|_]; [set_solver |].
      by rewrite Hk. }
    rewrite Hcreate in Hbody, Hcl. simpl in Hbody, Hcl.
    exists st'. split; [done |]. split; [done |]. split; [done |].
    rewrite Hcl. simpl. split; [done |].
    split; [by rewrite dom_insert_L |]. split; [done |].
    eexists. split; [done |]. simpl. rewrite sent_name. fold k.
    by destruct (decide _).
Qed.

Lemma Apply_range_store (owner : OwnerReference) (rs : list Unstructured) :
  ∀ ks st,
  rejected (cluster st) = ∅ →
  Forall2 (λ spec k, resource_key spec st = Some k) rs ks →
  ∃ st',
    Apply_range owner rs st = (None, st') ∧
    slices st' = slices st ∧ objects_frame st st' ∧
    rejected (cluster st') = ∅ ∧
    dom (stored (cluster st')) = list_to_set ks ∪ dom (stored (cluster st)) ∧
    ((∀ k, k ∈ ks → k ∈ dom (stored (cluster st))) →
     cluster st' = cluster st) ∧
    ∃ new, calls st' = calls st ++ new ∧
           omap created_key new =
             first_occurrences ks (dom (stored (cluster st))).
Proof.
  induction rs as [|spec rest IH]; intros ks st Hrej Hkeys.
  - apply Forall2_nil_inv_l in Hkeys as ->. exists st. simpl.
    split; [done |]. split; [done |]. split; [apply objects_frame_refl |].
    split; [done |]. split; [set_solver |]. split; [done |].
    exists []. by rewrite app_nil_r.
  - apply Forall2_cons_inv_l in Hkeys as (k & ks' & Hk & Hkeys & ->).
    destruct (Apply_body_store owner spec st k Hrej Hk)
      as (st1 & Hbody & Hsl & F & Hrej1 & Hdom & Hsame & new1 & Hcalls & Hnew).
    destruct (IH ks' st1 Hrej1)
      as (st' & Hrun & Hsl' & F' & Hrej' & Hdom' & Hsame' & new2 & Hcalls'
          & Hnew').
    { eapply Forall2_impl; [apply Hkeys |]. intros spec' k' Hk'.
      by rewrite (frame_resource_key st st1). }
    exists st'. simpl. rewrite Hbody.
    split; [done |]. split; [congruence |].
    split; [by eapply objects_frame_trans |]. split; [done |].
    split; [rewrite Hdom', Hdom; set_solver |]. split.
    + intros Hall. rewrite Hsame', Hsame; [done | |].
      * apply Hall. by left.
      * intros k' Hk'. rewrite Hdom. apply elem_of_union. right.
        apply Hall. by right.
    + exists (new1 ++ new2).
      split; [by rewrite Hcalls', Hcalls, <- (assoc_L (++)) |].
      rewrite omap_app, Hnew, Hnew', Hdom.
      by destruct (decide (k ∈ dom (stored (cluster st)))) as [Hin|Hout];
        [replace ({[k]} ∪ dom (stored (cluster st)))
           with (dom (stored (cluster st))) by set_solver |].
Qed.

Lemma resolves_keys (rs : list Unstructured) st :
  Forall (resolves st) rs →
  ∃ ks, Forall2 (λ spec k, resource_key spec st = Some k) rs ks.
Proof.
  induction 1 as [|spec rs Hres _ (ks & IH)]; [by exists [] |].
  destruct Hres as [c Hc].
  exists (key_of c (GetName spec st) :: ks). constructor; [| done].
  unfold resource_key. by rewrite Hc.
Qed.

Lemma no_created_key (new : list Call) :
  omap created_key new = [] → Forall (λ call, is_create call = false) new.
Proof.
  induction new as [|[| |] new IH]; simpl; intros E;
    [constructor | | done |]; constructor; auto.
Qed.

(** Two calls of [Apply] in a row from the empty store, for resources
    whose endpoints resolve. *)
Lemma Apply_twice_when_resolving f (owner : OwnerReference) st :
  cluster st = empty_cluster →
  Forall (resolves st) (slices st !!! resources f) →
  let rs := slices st !!! resources f in
  let first := Apply f owner st in
  let second := Apply f owner first.2 in
  (∀ (Σ : Type) (D : DynamicInterface Σ) (st0 : State Σ) spec c r,
     client spec st0 = inl c →
     dyn_Get c (GetName spec st0) (cluster st0) = (None, r) →
     Apply_body owner spec st0 =
     (None, remote_call (CallGet c (GetName spec st0)) r st0)) ∧
  first.1 = None ∧ second.1 = None ∧
  NoDup (omap created_key (calls_since st first.2)) ∧
  (∀ k, k ∈ omap created_key (calls_since st first.2) ↔
        ∃ spec, spec ∈ rs ∧ resource_key spec st = Some k) ∧
  (∀ k, k ∈ dom (stored (cluster first.2)) ↔
        ∃ spec, spec ∈ rs ∧ resource_key spec st = Some k) ∧
  Forall (λ call, is_create call = false) (calls_since first.2 second.2) ∧
  cluster second.2 = cluster first.2.
Proof.
  intros Hempty Hres rs first second.
  split; [intros; by apply Apply_body_found |].
  destruct (resolves_keys rs st Hres) as (ks & Hks).
  assert (∀ k, k ∈ ks ↔ ∃ spec, spec ∈ rs ∧ resource_key spec st = Some k)
    as Hmem.
  { intros k. split.
    - intros (i & Hi)%list_elem_of_lookup.
      destruct (Forall2_lookup_r _ _ _ _ _ Hks Hi) as (spec & Hspec & Hk).
      exists spec. split; [by eapply list_elem_of_lookup_2 | done].
    - intros (spec & (i & Hi)%list_elem_of_lookup & Hk).
      destruct (Forall2_lookup_l _ _ _ _ _ Hks Hi) as (k' & Hk' & Hkk).
      rewrite Hk in Hkk. injection Hkk as <-.
      by eapply list_elem_of_lookup_2. }
  destruct (Apply_range_store owner rs ks st)
    as (st1 & Hrun1 & Hsl1 & F1 & Hrej1 & Hdom1 & _ & new1 & Hcalls1 & Hnew1);
    [by rewrite Hempty | done |].
  assert (first = (None, st1)) as -> by done.
  simpl in second |- *.
  destruct (Apply_range_store owner rs ks st1)
    as (st2 & Hrun2 & Hsl2 & F2 & Hrej2 & Hdom2 & Hsame2 & new2 & Hcalls2
        & Hnew2); [done | |].
  { eapply Forall2_impl; [apply Hks |]. intros spec k Hk.
    by rewrite (frame_resource_key st st1). }
  assert (second = (None, st2)) as ->
    by (unfold second, Apply; by rewrite Hsl1).
  simpl.
  rewrite (calls_since_app _ _ _ Hcalls1), (calls_since_app _ _ _ Hcalls2).
  rewrite Hnew1, Hempty. simpl. rewrite dom_empty_L.
  split; [done |]. split; [done |].
  split; [apply NoDup_first_occurrences |].
  split.
  { intros k. rewrite elem_of_first_occurrences, <- Hmem. set_solver. }
  split.
  { intros k. rewrite Hdom1, Hempty. simpl. rewrite dom_empty_L, <- Hmem.
    rewrite elem_of_union, elem_of_list_to_set. set_solver. }
  assert (∀ k, k ∈ ks → k ∈ dom (stored (cluster st1))) as Hall
    by (intros k Hk; rewrite Hdom1; set_solver).
  split; [| by apply Hsame2].
  apply no_created_key. rewrite Hnew2. by apply first_occurrences_seen.
Qed.
End StoreClaims.

(** ** [Apply] on the engine [NewYamlFile] builds *)

Section ParsedEngine.
Context {lower : Strings.UnicodeLower} {files : Files}
  {decoder : YAMLDecoder}.

(** The endpoint of every resource the parser keeps resolves: a document
    that decodes to an object has an [apiVersion] that parses, and the
    resource with the [nil] map has the empty one. *)
Lemma NewYamlFile_resolves {Σ : Type} {remote : DynamicInterface Σ}
    (fuel : nat) (path : string) (st : State Σ) f st' :
  NewYamlFile fuel path st = Returned (f, st') →
  Forall (resolves st') (slices st' !!! resources f).
Proof.
  unfold NewYamlFile, parse.
  destruct (read fuel path) as [docs| |]; [| done..].
  destruct (decode_spec docs
              (log_entry (LogInfo "Reading YAML file" [("name", path)]) st))
    as (rs & st1 & -> & _ & Hall & _).
  intros [= <- <-]. simpl. rewrite lookup_total_insert_eq.
  apply Forall_forall. intros spec (i & Hi)%list_elem_of_lookup.
  destruct (Forall2_lookup_l _ _ _ _ _ Hall Hi) as (d & Hd & Hspec).
  unfold resolves. rewrite client_resolution.
  unfold GetAPIVersion, fields. simpl.
  destruct d as [o|]; simpl in Hspec.
  - destruct Hspec as (l & -> & Hl).
    rewrite (lookup_total_correct _ _ _ Hl).
    destruct (decoded_object docs o) as (_ & gv & ->);
      [by eapply list_elem_of_lookup_2 | by eexists].
  - rewrite Hspec. by eexists.
Qed.

(** C1: a resource whose existence check succeeds is passed over with no
    create, on any remote side.  For the engine [NewYamlFile] builds from
    any file, two calls of [Apply] in a row from the empty store both
    return [nil]; the first creates every resource of the manifest, each
    once; the second creates nothing and leaves the store as the first
    left it. *)
Theorem Apply_twice_from_empty_store (fuel : nat) (path : string)
    (st0 : State Cluster) f st (owner : OwnerReference) :
  NewYamlFile fuel path st0 = Returned (f, st) →
  cluster st0 = empty_cluster →
  let rs := slices st !!! resources f in
  let first := Apply f owner st in
  let second := Apply f owner first.2 in
  (∀ (Σ : Type) (D : DynamicInterface Σ) (st0 : State Σ) spec c r,
     client spec st0 = inl c →
     dyn_Get c (GetName spec st0) (cluster st0) = (None, r) →
     Apply_body owner spec st0 =
     (None, remote_call (CallGet c (GetName spec st0)) r st0)) ∧
  first.1 = None ∧ second.1 = None ∧
  NoDup (omap created_key (calls_since st first.2)) ∧
  (∀ k, k ∈ omap created_key (calls_since st first.2) ↔
        ∃ spec, spec ∈ rs ∧ resource_key spec st = Some k) ∧
  (∀ k, k ∈ dom (stored (cluster first.2)) ↔
        ∃ spec, spec ∈ rs ∧ resource_key spec st = Some k) ∧
  Forall (λ call, is_create call = false) (calls_since first.2 second.2) ∧
  cluster second.2 = cluster first.2.
Proof.
  intros Hbuilt Hempty.
  apply Apply_twice_when_resolving; [| by eapply NewYamlFile_resolves].
  revert Hbuilt. unfold NewYamlFile, parse.
  destruct (read fuel path) as [docs| |]; [| done..].
  destruct (decode_spec docs
              (log_entry (LogInfo "Reading YAML file" [("name", path)]) st0))
    as (rs' & st1 & -> & _ & _ & _ & _ & _ & _ & Hcl & _).
  intros [= _ <-]. simpl. by rewrite Hcl.
Qed.
End ParsedEngine.

(** ** [ResourceNames] *)

Section Names.
Context `{Strings.UnicodeLower} {Σ : Type} `{DynamicInterface Σ}.

Implicit Types (st : State Σ) (spec : Unstructured) (f : YamlFile).

Lemma processed_None (owner : OwnerReference) (rs : list Unstructured) :
  ∀ st st',
  Apply_range owner rs st = (None, st') → processed owner rs st = rs.
Proof.
  induction rs as [|spec rest IH]; intros st st' Hrun; simpl in *; [done |].
  destruct (Apply_body owner spec st) as [[e|] st1]; [done |].
  f_equal. by eapply IH.
Qed.

Lemma ResourceNames_frame f st st' :
  slices st' = slices st → objects_frame st st' →
  ResourceNames f st' = ResourceNames f st.
Proof.
  intros Hsl F. unfold ResourceNames. rewrite Hsl.
  apply list_fmap_ext. intros _ spec _. by apply frame_resource_name.
Qed.

(** C9 as the code has it.  [Apply] returns an error value and nothing
    else.  The identifiers come from [ResourceNames]: one for every stored
    resource, in file order, the name followed by the group-version-kind
    in brackets, as in [controller (apps/v1, Kind=Deployment)]; [Apply]
    does not change them, and after an [Apply] that returned [nil] they
    are the identifiers of the resources it got through, those found to
    exist included, which are then all the resources. *)
Theorem ResourceNames_after_Apply f (owner : OwnerReference) st :
  let rs := slices st !!! resources f in
  let result := Apply f owner st in
  ResourceNames f st =
    (λ spec, GetName spec st +:+ " (" +:+
             GroupVersionKind_String (GroupVersionKind_of spec st) +:+ ")")
    <$> rs ∧
  (∀ spec gv,
     ParseGroupVersion (GetAPIVersion spec st) = inl gv →
     resource_name spec st =
     GetName spec st +:+ " (" +:+
     (gv_Group gv +:+ "/" +:+ gv_Version gv +:+ ", Kind=" +:+ GetKind spec st)
     +:+ ")") ∧
  ResourceNames f result.2 = ResourceNames f st ∧
  (result.1 = None →
   processed owner rs st = rs ∧
   ResourceNames f result.2 =
     (λ spec, resource_name spec st) <$> processed owner rs st).
Proof.
  intros rs result. split; [done |]. split.
  { intros spec gv Hgv. unfold resource_name, GroupVersionKind_of.
    by rewrite Hgv. }
  destruct result as [err st'] eqn:Hrun. unfold result, Apply in Hrun.
  fold rs in Hrun. simpl.
  pose proof Hrun as Hspec.
  apply Apply_range_spec in Hspec as (Hsl & F & _).
  assert (ResourceNames f st' = ResourceNames f st) as Hnames
    by by apply ResourceNames_frame.
  split; [done |]. intros ->.
  rewrite (processed_None _ _ _ _ Hrun). by rewrite Hnames.
Qed.
End Names.

(** * Further properties of the engine *)

(** ** Kinds *)

Lemma string_length_substring_0 (s : string) (k : nat) :
  (k ≤ String.length s)%nat → String.length (substring 0 k s) = k.
Proof.
  revert k. induction s as [|c s IH]; intros [|k] Hk; simpl in *;
    try done; try lia.
  f_equal. apply IH. lia.
Qed.

(** X1: the collection name [pluralize] gives always ends in "s", so it is
    never empty, and it is one byte longer than the lower-cased kind when
    that ends in neither "s" nor "policy", two bytes longer otherwise. *)
Theorem pluralize_ends_in_s `{Strings.UnicodeLower} (kind : string) :
  let ret := Strings.ToLower kind in
  Strings.HasSuffix (pluralize kind) "s" = true ∧
  pluralize kind ≠ "" ∧
  String.length (pluralize kind) =
    String.length ret +
    (if Strings.HasSuffix ret "s" || Strings.HasSuffix ret "policy"
     then 2 else 1).
Proof.
  intros ret.
  assert (Strings.HasSuffix (pluralize kind) "s" = true ∧
          String.length (pluralize kind) =
            String.length ret +
            (if Strings.HasSuffix ret "s" || Strings.HasSuffix ret "policy"
             then 2 else 1)) as [Hs Hlen].
  { unfold pluralize. fold ret.
    destruct (Strings.HasSuffix ret "s") eqn:Hs; simpl.
    - split; [| by rewrite string_length_app].
      apply HasSuffix_true. exists (ret +:+ "e").
      by rewrite string_app_assoc.
    - destruct (Strings.HasSuffix ret "policy") eqn:Hp.
      + split.
        * apply HasSuffix_true. exists (drop_last ret +:+ "ie").
          by rewrite string_app_assoc.
        * apply HasSuffix_true in Hp as [p Hp].
          rewrite Hp, drop_last_app, !string_length_app. simpl. lia.
      + split; [| by rewrite string_length_app].
        apply HasSuffix_true. by exists ret. }
  split; [done |]. split; [| done].
  intros E. rewrite E in Hs. done.
Qed.

Lemma lower_byte_ascii (c : ascii) :
  (nat_of_ascii c <? Strings.RuneSelf)%nat = true →
  (nat_of_ascii (Strings.lower_byte c) <? Strings.RuneSelf)%nat = true ∧
  Strings.is_upper (Strings.lower_byte c) = false.
Proof.
  unfold Strings.lower_byte, Strings.is_upper, Strings.RuneSelf.
  rewrite !Nat.ltb_lt. intros Hc.
  destruct ((65 <=? nat_of_ascii c)%nat && (nat_of_ascii c <=? 90)%nat)
    eqn:Hup.
  - apply andb_true_iff in Hup as [H1%Nat.leb_le H2%Nat.leb_le].
    rewrite nat_ascii_embedding by lia. split; [lia |].
    apply andb_false_iff. right. apply Nat.leb_gt. lia.
  - by rewrite Hup.
Qed.

Lemma map_lower_ascii (s : string) :
  Strings.isASCII s = true →
  Strings.isASCII (Strings.map_bytes Strings.lower_byte s) = true ∧
  Strings.hasUpper (Strings.map_bytes Strings.lower_byte s) = false.
Proof.
  unfold Strings.isASCII, Strings.hasUpper. rewrite negb_false_iff.
  induction s as [|c s IH]; simpl; [done |].
  rewrite !andb_true_iff. intros [Hc Hs].
  destruct (lower_byte_ascii c Hc) as [H1 H2].
  destruct (IH Hs) as [H3 H4].
  rewrite H1, H2, H3, H4. done.
Qed.

(** X2: the case of an ASCII kind does not matter: lower-casing is
    idempotent on it, and [pluralize] and [isClusterScoped] give for the
    kind what they give for its lower-cased form. *)
Theorem kind_case_is_ignored `{Strings.UnicodeLower} (kind : string) :
  Strings.isASCII kind = true →
  Strings.ToLower (Strings.ToLower kind) = Strings.ToLower kind ∧
  pluralize (Strings.ToLower kind) = pluralize kind ∧
  isClusterScoped (Strings.ToLower kind) = isClusterScoped kind.
Proof.
  intros Hascii.
  assert (Strings.ToLower (Strings.ToLower kind) = Strings.ToLower kind) as E.
  { rewrite (ToLower_ascii kind Hascii).
    destruct (map_lower_ascii kind Hascii) as [H1 H2].
    rewrite (ToLower_ascii _ H1). by apply map_bytes_no_upper. }
  split; [done |]. unfold pluralize, isClusterScoped. by rewrite E.
Qed.

(** ** The reversal loop *)

(** X3: the loop [Delete] reverses its copy with needs no more than
    [len(a)] iterations, indexes no element out of range, and leaves the
    array reversed; run on its own result it gives the array back. *)
Theorem reversal_loop_reverses {A : Type} (l : list A) (spare : nat) :
  reverse_loop (length l + spare) 0 (Z.of_nat (length l) - 1) l
    = Some (reverse l) ∧
  (reverse_loop (length l) 0 (Z.of_nat (length l) - 1) l
     ≫= λ l', reverse_loop (length l') 0 (Z.of_nat (length l') - 1) l')
    = Some l.
Proof.
  assert (∀ (l : list A) spare,
            reverse_loop (length l + spare) 0 (Z.of_nat (length l) - 1) l
            = Some (reverse l)) as Hloop.
  { intros l0 n.
    pose proof (reverse_loop_middle (length l0 + n) l0 [] []) as E.
    simpl in E. rewrite !app_nil_r in E. apply E. lia. }
  split; [apply Hloop |].
  pose proof (Hloop l 0) as E1. rewrite Nat.add_0_r in E1. rewrite E1. simpl.
  pose proof (Hloop (reverse l) 0) as E2. rewrite Nat.add_0_r in E2.
  by rewrite E2, reverse_involutive.
Qed.

(** ** What an iteration of [Apply] leaves behind *)

Section ApplyEffects.
Context `{Strings.UnicodeLower} {Σ : Type} `{DynamicInterface Σ}.

Implicit Types (st : State Σ) (spec : Unstructured) (f : YamlFile).

(** The log line of a successful create. *)
Lemma Apply_body_create_effects (owner : OwnerReference) spec st c gerr r :
  client spec st = inl c →
  dyn_Get c (GetName spec st) (cluster st) = (Some gerr, r) →
  IsNotFound gerr = true →
  ∃ st',
    (Apply_body owner spec st).2 = st' ∧
    cluster st' = (dyn_Create c (sent owner spec st) r).2 ∧
    objects st' =
      (if isClusterScoped (GetKind spec st) then objects st
       else <[default (fresh (dom (objects st))) (Object spec)
              := sent owner spec st]> (objects st)) ∧
    logs st' =
      logs st ++
      match (dyn_Create c (sent owner spec st) r).1 with
      | Some _ => []
      | None =>
          [LogInfo "Created resource"
             [("type", GroupVersionKind_String (GroupVersionKind_of spec st));
              ("name", GetName spec st)]]
      end.
Proof.
  intros Hc Hget Hnf. unfold Apply_body, Get, sent.
  rewrite Hc, Hget, Hnf. cbn [negb].
  set (st1 := remote_call (CallGet c (GetName spec st)) r st).
  change (GetKind spec st1) with (GetKind spec st).
  destruct (isClusterScoped (GetKind spec st)) eqn:Hscope; cbn [negb];
    unfold Create.
  - change (fields spec st1) with (fields spec st).
    change (cluster st1) with r.
    destruct (dyn_Create c (fields spec st) r) as [[e|] r'] eqn:Hcreate;
      simpl; [destruct (IsAlreadyExists e) |];
      (eexists; split; [reflexivity |]; simpl;
       split; [done |]; split; [done |]; by rewrite ?app_nil_r).
  - pose proof (SetOwnerReferences_spec spec [owner] st1) as Hset.
    unfold SetOwnerReferences in *.
    set (l := default (fresh (dom (objects st1))) (Object spec)) in *.
    set (spec' := {| Object := Some l |}) in *.
    set (st2 := set_objects _ st1) in *.
    destruct Hset as (Hsl & Hcl & Hca & Hlg & F & Hfields).
    rewrite Hfields, Hcl.
    change (fields spec st1) with (fields spec st) in *.
    change (cluster st1) with r.
    assert (∀ call r0, GetName spec' (remote_call call r0 st2)
                       = GetName spec st) as Hname.
    { intros call r0. unfold GetName.
      change (fields spec' (remote_call call r0 st2)) with (fields spec' st2).
      by rewrite Hfields. }
    assert (∀ call r0, GroupVersionKind_of spec' (remote_call call r0 st2)
                       = GroupVersionKind_of spec st) as Hgvk.
    { intros call r0. unfold GroupVersionKind_of, GetAPIVersion, GetKind.
      change (fields spec' (remote_call call r0 st2)) with (fields spec' st2).
      by rewrite Hfields. }
    destruct (dyn_Create c (with_ownerReferences [owner] (fields spec st)) r)
      as [[e|] r'] eqn:Hcreate;
      simpl; [destruct (IsAlreadyExists e) |];
      (eexists; split; [reflexivity |]; simpl;
       split; [done |]; split; [done |]).
    all: rewrite ?app_nil_r; try done.
    by rewrite Hname, Hgvk.
Qed.

Lemma issued_deletes_are_deletes (a : list Unstructured) st :
  Forall (λ call, is_delete call = true) (issued_deletes a st).
Proof.
  induction a as [|spec a IH]; simpl; [constructor |].
  destruct (client spec st); by constructor.
Qed.

(** X4: [Apply] never issues a delete request, and [Delete] issues nothing
    but delete requests: no existence check, no create. *)
Theorem engine_call_kinds f (owner : OwnerReference) st :
  Forall (λ call, is_delete call = false)
         (calls_since st (Apply f owner st).2) ∧
  ∃ err st',
    Delete f st = Some (err, st') ∧
    Forall (λ call, is_delete call = true) (calls_since st st').
Proof.
  split.
  - unfold Apply.
    destruct (Apply_range_calls owner (slices st !!! resources f) st)
      as (more & Hcalls & Hnd).
    by rewrite (calls_since_app _ _ _ Hcalls).
  - destruct (Delete_spec f st) as (st' & Hrun & _ & _ & Hcalls).
    eexists _, st'. split; [done |].
    rewrite (calls_since_app _ _ _ Hcalls).
    apply issued_deletes_are_deletes.
Qed.

(** X5: [Apply] gives up on a resource before any create in two ways.
    When the endpoint of the resource does not resolve it returns the
    error of the parse with no remote call for the resource; when the
    existence check fails otherwise than with not-found it returns that
    error right after the check.  Either way no owner reference is
    written, nothing is logged, and the resources after it are not
    looked at. *)
Theorem Apply_aborts_before_create (owner : OwnerReference)
    (pre post : list Unstructured) spec st0 :
  let st := (Apply_range owner pre st0).2 in
  (Apply_range owner pre st0).1 = None →
  (∀ e, client spec st = inr e →
        Apply_range owner (pre ++ spec :: post) st0 = (Some e, st)) ∧
  (∀ c gerr,
     client spec st = inl c →
     (dyn_Get c (GetName spec st) (cluster st)).1 = Some gerr →
     IsNotFound gerr = false →
     Apply_range owner (pre ++ spec :: post) st0 =
     (Some gerr,
      remote_call (CallGet c (GetName spec st))
                  (dyn_Get c (GetName spec st) (cluster st)).2 st)).
Proof.
  intros st Hfst.
  assert (Apply_range owner pre st0 = (None, st)) as Hpre
    by (unfold st; destruct (Apply_range owner pre st0); simpl in *; congruence).
  clearbody st. split.
  - intros e Hc. rewrite Apply_range_app, Hpre. simpl.
    by rewrite (Apply_body_unresolved owner spec st e Hc).
  - intros c gerr Hc Hget Hnf. rewrite Apply_range_app, Hpre. simpl.
    destruct (dyn_Get c (GetName spec st) (cluster st)) as [g r] eqn:Hget'.
    simpl in Hget. subst g.
    by rewrite (Apply_body_get_error owner spec st c gerr r Hc Hget' Hnf).
Qed.

(** X6: a resource [Apply] creates, its kind not cluster-scoped, keeps the
    owner reference in the engine: the copy the loop writes to holds the
    same map as the stored resource, so after the iteration the stored
    resource reads back what was sent, on every field. *)
Theorem stored_resource_keeps_owner (owner : OwnerReference)
    (pre : list Unstructured) spec st0 c gerr (l : loc) :
  let st := (Apply_range owner pre st0).2 in
  let st' := (Apply_range owner (pre ++ [spec]) st0).2 in
  (Apply_range owner pre st0).1 = None →
  client spec st = inl c →
  (dyn_Get c (GetName spec st) (cluster st)).1 = Some gerr →
  IsNotFound gerr = true →
  Object spec = Some l →
  fields spec st' = sent owner spec st ∧
  (isClusterScoped (GetKind spec st) = false →
   f_ownerReferences (fields spec st') = [owner]) ∧
  (isClusterScoped (GetKind spec st) = true →
   fields spec st' = fields spec st).
Proof.
  intros st st' Hfst Hc Hget1 Hnf Hl.
  assert (Apply_range owner pre st0 = (None, st)) as Hpre
    by (unfold st; destruct (Apply_range owner pre st0); simpl in *; congruence).
  assert (st' = (Apply_body owner spec st).2) as ->.
  { unfold st'. rewrite Apply_range_app, Hpre. simpl.
    by destruct (Apply_body owner spec st) as [[e|] st2]. }
  clearbody st. clear Hfst Hpre.
  destruct (dyn_Get c (GetName spec st) (cluster st)) as [g r] eqn:Hget.
  simpl in Hget1. subst g.
  destruct (Apply_body_create_effects owner spec st c gerr r Hc Hget Hnf)
    as (st2 & -> & _ & Hob & _).
  assert (fields spec st2 = sent owner spec st) as Hsent.
  { unfold fields at 1. rewrite Hl, Hob. unfold sent.
    destruct (isClusterScoped (GetKind spec st)).
    - unfold fields. by rewrite Hl.
    - rewrite Hl. simpl. by rewrite lookup_total_insert_eq. }
  split; [done |]. rewrite Hsent. unfold sent.
  split; by intros ->.
Qed.
End ApplyEffects.

(** ** The engine against the object store *)

Section StoreEffects.
Context `{Strings.UnicodeLower}.

Implicit Types (st : State Cluster) (spec : Unstructured) (f : YamlFile)
  (k : Key) (ks : list Key).

Lemma Apply_body_store_effects (owner : OwnerReference) spec st :
  let st' := (Apply_body owner spec st).2 in
  stored (cluster st) ⊆ stored (cluster st') ∧
  rejected (cluster st') = rejected (cluster st) ∧
  length (logs st') + size (stored (cluster st))
  = length (logs st) + size (stored (cluster st')).
Proof.
  destruct (client spec st) as [c|e] eqn:Hc.
  - set (k := key_of c (GetName spec st)).
    destruct (stored (cluster st) !! k) as [o|] eqn:Hk.
    + rewrite (Apply_body_found owner spec st c (cluster st) Hc);
        [done | simpl; fold k; by rewrite Hk].
    + destruct (Apply_body_create_effects owner spec st c
                  (StatusError StatusReasonNotFound) (cluster st))
        as (st' & -> & Hcl & _ & Hlogs); [done | | done |].
      { simpl. fold k. by rewrite Hk. }
      simpl. rewrite Hcl, Hlogs. simpl. rewrite sent_name. fold k.
      destruct (decide (k ∈ rejected (cluster st))); simpl.
      * by rewrite app_nil_r.
      * rewrite Hk. simpl. split; [by apply insert_subseteq |].
        split; [done |].
        rewrite length_app, map_size_insert_None by done. simpl. lia.
  - by rewrite (Apply_body_unresolved owner spec st e Hc).
Qed.

Lemma Apply_range_store_effects (owner : OwnerReference)
    (rs : list Unstructured) : ∀ st,
  let st' := (Apply_range owner rs st).2 in
  stored (cluster st) ⊆ stored (cluster st') ∧
  rejected (cluster st') = rejected (cluster st) ∧
  length (logs st') + size (stored (cluster st))
  = length (logs st) + size (stored (cluster st')).
Proof.
  induction rs as [|spec rest IH]; intros st; simpl; [done |].
  pose proof (Apply_body_store_effects owner spec st) as (Hsub & Hrej & Hlen).
  destruct (Apply_body owner spec st) as [[e|] st1]; simpl in *; [done |].
  destruct (IH st1) as (Hsub' & Hrej' & Hlen').
  split; [by etrans |]. split; [congruence | lia].
Qed.

(** X7: [Apply] only ever adds to the store: an object that is there when
    [Apply] starts is there unchanged when it ends, whatever the manifest
    and whatever the store rejects. *)
Theorem Apply_keeps_existing_objects f (owner : OwnerReference) st :
  stored (cluster st) ⊆ stored (cluster (Apply f owner st).2).
Proof.
  unfold Apply.
  by destruct (Apply_range_store_effects owner (slices st !!! resources f) st)
    as (Hsub & _).
Qed.

(** X8: [Apply] logs a line, "Created resource", for each object it adds
    to the store and for nothing else: the log grows by as many lines as
    the store grows by objects. *)
Theorem created_lines_count_new_objects f (owner : OwnerReference) st :
  let st' := (Apply f owner st).2 in
  length (logs st') + size (stored (cluster st))
  = length (logs st) + size (stored (cluster st')).
Proof.
  unfold Apply.
  by destruct (Apply_range_store_effects owner (slices st !!! resources f) st)
    as (_ & _ & Hlen).
Qed.

Lemma Delete_body_store spec st c :
  client spec st = inl c →
  ∃ st',
    Delete_body spec st = (None, st') ∧
    objects st' = objects st ∧
    stored (cluster st') =
      delete (key_of c (GetName spec st)) (stored (cluster st)) ∧
    rejected (cluster st') = rejected (cluster st).
Proof.
  intros Hc. unfold Delete_body, Delete_call. rewrite Hc. simpl.
  change (GetName spec (log_entry _ st)) with (GetName spec st).
  destruct (stored (cluster st) !! key_of c (GetName spec st)) eqn:Hk;
    eexists; (split; [reflexivity |]); simpl;
    (split; [done |]); (split; [| done]); [done |].
  by rewrite delete_id.
Qed.

Lemma Delete_range_store (a : list Unstructured) : ∀ ks st,
  Forall2 (λ spec k, resource_key spec st = Some k) a ks →
  ∃ st',
    Delete_range a st = (None, st') ∧
    rejected (cluster st') = rejected (cluster st) ∧
    ∀ k, stored (cluster st') !! k =
         if decide (k ∈ ks) then None else stored (cluster st) !! k.
Proof.
  induction a as [|spec a IH]; intros ks st Hks.
  - apply Forall2_nil_inv_l in Hks as ->. exists st. simpl.
    split; [done |]. split; [done |]. intros k.
    by destruct (decide (k ∈ [])) as [?%elem_of_nil|].
  - apply Forall2_cons_inv_l in Hks as (k0 & ks' & Hk0 & Hks & ->).
    unfold resource_key in Hk0.
    destruct (client spec st) as [c|] eqn:Hc; [| done].
    injection Hk0 as <-.
    destruct (Delete_body_store spec st c Hc)
      as (st1 & Hbody & Hob & Hst & Hrej).
    destruct (IH ks' st1) as (st' & Hrun & Hrej' & Hlook).
    { eapply Forall2_impl; [apply Hks |]. intros spec' k' Hk'.
      rewrite <- Hk'. by apply frame_resource_key, objects_frame_eq. }
    exists st'. simpl. rewrite Hbody. split; [done |].
    split; [congruence |]. intros k. rewrite Hlook, Hst.
    destruct (decide (k ∈ ks')) as [Hin|Hout].
    + by rewrite decide_True by (by right).
    + destruct (decide (k = key_of c (GetName spec st))) as [->|Hne].
      * rewrite decide_True by (by left). apply lookup_delete_eq.
      * rewrite lookup_delete_ne by done.
        rewrite decide_False; [done |].
        intros [?|?]%elem_of_cons; done.
Qed.

Lemma resolves_resource_keys (rs : list Unstructured) st :
  Forall (resolves st) rs →
  Forall2 (λ spec k, resource_key spec st = Some k)
          rs (omap (λ spec, resource_key spec st) rs).
Proof.
  induction 1 as [|spec rs [c Hc] _ IH]; simpl; [constructor |].
  unfold resource_key at 2. rewrite Hc. simpl. constructor; [| done].
  unfold resource_key. by rewrite Hc.
Qed.

Lemma Delete_store f st :
  Forall (resolves st) (slices st !!! resources f) →
  ∃ st',
    Delete f st = Some (None, st') ∧
    rejected (cluster st') = rejected (cluster st) ∧
    ∀ k, stored (cluster st') !! k =
         if decide (k ∈ omap (λ spec, resource_key spec st)
                             (slices st !!! resources f))
         then None else stored (cluster st) !! k.
Proof.
  intros Hres. rewrite Delete_eq.
  set (rs := slices st !!! resources f) in *.
  set (st0 := set_slices _ st).
  assert (objects_frame st st0) as F by by apply objects_frame_eq.
  destruct (Delete_range_store (reverse rs)
              (reverse (omap (λ spec, resource_key spec st) rs)) st0)
    as (st' & Hrun & Hrej & Hlook).
  { apply Forall2_reverse.
    eapply Forall2_impl; [by apply resolves_resource_keys |].
    intros spec k Hk. by rewrite (frame_resource_key st st0). }
  exists st'. rewrite Hrun. split; [done |]. split; [done |].
  intros k. rewrite Hlook. simpl.
  destruct (decide (k ∈ reverse _)) as [Hin|Hout].
  - rewrite elem_of_reverse in Hin. by rewrite decide_True.
  - rewrite elem_of_reverse in Hout. by rewrite decide_False.
Qed.

(** X9: when the endpoint of every resource resolves, [Delete] returns
    [nil] and takes out of the store exactly the objects the manifest
    names: each of those is gone afterwards, whether or not it was there,
    and every other object is as it was. *)
Theorem Delete_removes_manifest_objects f st :
  Forall (resolves st) (slices st !!! resources f) →
  ∃ st',
    Delete f st = Some (None, st') ∧
    rejected (cluster st') = rejected (cluster st) ∧
    ∀ k, stored (cluster st') !! k =
         if decide (k ∈ omap (λ spec, resource_key spec st)
                             (slices st !!! resources f))
         then None else stored (cluster st) !! k.
Proof. apply Delete_store. Qed.

(** X10: [Apply] and then [Delete], from the empty store and for a
    manifest whose endpoints all resolve: both return [nil] and the store
    is empty again. *)
Theorem Apply_then_Delete_empties_store f (owner : OwnerReference) st :
  cluster st = empty_cluster →
  Forall (resolves st) (slices st !!! resources f) →
  (Apply f owner st).1 = None ∧
  ∃ st', Delete f (Apply f owner st).2 = Some (None, st') ∧
         cluster st' = empty_cluster.
Proof.
  intros Hempty Hres.
  set (rs := slices st !!! resources f) in *.
  destruct (resolves_keys rs st Hres) as (ks & Hks).
  destruct (Apply_range_store owner rs ks st)
    as (st1 & Hrun & Hsl & F & Hrej & Hdom & _); [by rewrite Hempty | done |].
  assert (Apply f owner st = (None, st1)) as -> by done.
  simpl. split; [done |].
  assert (slices st1 !!! resources f = rs) as Hrs by (by rewrite Hsl).
  assert (Forall2 (λ spec k, resource_key spec st1 = Some k) rs ks) as Hks1.
  { eapply Forall2_impl; [apply Hks |]. intros spec k Hk.
    by rewrite (frame_resource_key st st1). }
  assert (omap (λ spec, resource_key spec st1) rs = ks) as Hkeys.
  { clear -Hks1. induction Hks1 as [|spec k rs ks Hk _ IH]; [done |].
    simpl. rewrite Hk. simpl. f_equal. apply IH. }
  destruct (Delete_store f st1) as (st' & Hdel & Hrej' & Hlook).
  { rewrite Hrs. eapply Forall_impl; [apply Hres |].
    intros spec [c Hc]. exists c. by rewrite (frame_client st st1). }
  exists st'. split; [done |].
  rewrite Hrs, Hkeys in Hlook.
  assert (stored (cluster st') = ∅) as Hst.
  { apply map_eq. intros k. rewrite Hlook, lookup_empty.
    destruct (decide (k ∈ ks)) as [Hin|Hout]; [done |].
    apply not_elem_of_dom. rewrite Hdom, Hempty. simpl.
    rewrite dom_empty_L. set_solver. }
  destruct (cluster st') as [s r]. simpl in *.
  rewrite Hrej in Hrej'. unfold empty_cluster. by rewrite Hst, Hrej'.
Qed.
End StoreEffects.

(** ** Building the engine *)

Section BuildClaims.
Context `{Files} `{YAMLDecoder} {Σ : Type}.

Implicit Types (st : State Σ).

(** X11: [NewYamlFile] panics exactly when the file cannot be opened.
    When the file opens, it returns if some call of [Read] returns
    [io.EOF], the fuel reaching that call, and it does not return if none
    does, as for a directory.  The engine it returns carries the path and
    holds, in a slice of its own, what the documents that decode left, in
    file order; the log has the line "Reading YAML file" and then the
    warnings of the decoding; no remote call is made, and what was on the
    heap is still there. *)
Theorem NewYamlFile_builds_engine (fuel : nat) (path : string) st :
  (NewYamlFile fuel path st = Panicked ↔ os_Open path = None) ∧
  (∀ file,
     os_Open path = Some file →
     let manifests := file_Read file (buffer file) in
     (∀ n, ends_at manifests n →
           if decide (n < fuel)
           then read fuel path = Returned (chunks manifests 0 n) ∧
                ∃ built, NewYamlFile fuel path st = Returned built
           else NewYamlFile fuel path st = Unfinished) ∧
     ((∀ i, (manifests i).2 ≠ Some EOF) →
      NewYamlFile fuel path st = Unfinished)) ∧
  ∀ f st',
    NewYamlFile fuel path st = Returned (f, st') →
    name f = path ∧
    (∃ docs,
       read fuel path = Returned docs ∧
       Forall2 (made_of st') (slices st' !!! resources f) (decoded docs) ∧
       logs st' = logs st ++ LogInfo "Reading YAML file" [("name", path)]
                          :: warnings docs) ∧
    calls st' = calls st ∧ cluster st' = cluster st ∧
    slices st ⊆ slices st' ∧ objects st ⊆ objects st' ∧
    slices st !! resources f = None.
Proof.
  set (st0 := log_entry (LogInfo "Reading YAML file" [("name", path)]) st).
  assert (∀ docs, read fuel path = Returned docs →
                  ∃ built, NewYamlFile fuel path st = Returned built)
    as Hreturns.
  { intros docs Hread. unfold NewYamlFile, parse. rewrite Hread.
    destruct (decode docs _) as [result st1]. by eexists. }
  split; [| split].
  - unfold NewYamlFile, parse, read.
    destruct (os_Open path) as [file|]; [| done].
    split; [| done].
    destruct (read_loop fuel _ 0); [| done].
    by destruct (decode _ _).
  - intros file Hopen manifests. split.
    + intros n Hn.
      pose proof (read_ends fuel path file n Hopen Hn) as Hread.
      destruct (decide (n < fuel)).
      * split; [done |]. by eapply Hreturns.
      * unfold NewYamlFile, parse. by rewrite Hread.
    + intros Hnever. unfold NewYamlFile, parse.
      by rewrite (read_endless fuel path file Hopen Hnever).
  - unfold NewYamlFile, parse.
    destruct (read fuel path) as [docs| |]; [| done..].
    fold st0. destruct (decode_spec docs st0)
      as (rs & st1 & Hdec & Hsub & Hall & _ & _ & Hlogs & Hsl & Hcl & Hca).
    rewrite Hdec. intros f st' [= <- <-]. simpl.
    assert (slices st !! fresh (dom (slices st1)) = None) as Hfresh.
    { rewrite Hsl. apply not_elem_of_dom, is_fresh. }
    split; [done |]. split.
    { exists docs. split; [done |]. rewrite lookup_total_insert_eq.
      split; [done |]. rewrite Hlogs. simpl. by rewrite <- (assoc_L (++)). }
    split; [done |]. split; [done |].
    split.
    { replace (slices st1) with (slices st) at 2 by (by rewrite Hsl).
      by apply insert_subseteq. }
    split; done.
Qed.
End BuildClaims.


(** ** The draft of the engine *)

Section DraftClaims.
Context {lower : Strings.UnicodeLower} {files : Files} {decoder : YAMLDecoder}
  {Σ : Type} {remote : DynamicInterface Σ}.

Implicit Types (st : State Σ) (spec : Unstructured) (out : list Printed).

Lemma client_draft_client spec st out :
  (client_draft spec st out).1 = client spec st.
Proof.
  unfold client_draft, client.
  destruct (ParseGroupVersion _); [| done]. by destruct (String.eqb _ _).
Qed.

Lemma create_body_spec spec st out :
  ∃ st' out',
    slices st' = slices st ∧ objects st' = objects st ∧ logs st' = logs st ∧
    match client spec st with
    | inr err =>
        create_body spec st out = (Some err, st', out') ∧ calls st' = calls st
    | inl c =>
        create_body spec st out = (None, st', out') ∧
        calls st' = calls st ++ [CallCreate c (fields spec st)]
    end.
Proof.
  unfold create_body.
  pose proof (client_draft_client spec st out) as Hc.
  destruct (client_draft spec st out) as [c out1]. simpl in Hc. subst c.
  destruct (client spec st) as [c|e]; [| by exists st, out1].
  unfold Create.
  destruct (dyn_Create c (fields spec st) (cluster st)) as [[e|] r];
    eexists _, _; (split; [| split; [| split; [| split; [reflexivity |]]]]);
    done.
Qed.

Lemma frame_issued_creates st st' (a : list Unstructured) :
  objects st' = objects st → issued_creates a st' = issued_creates a st.
Proof.
  intros E. induction a as [|spec a IH]; simpl; [done |].
  rewrite (frame_client st st') by by apply objects_frame_eq.
  rewrite IH. unfold fields. by rewrite E.
Qed.

Lemma create_spec (resources : list Unstructured) : ∀ st out,
  ∃ st' out',
    create resources st out = (resolution_error resources st, st', out') ∧
    slices st' = slices st ∧ objects st' = objects st ∧
    logs st' = logs st ∧
    calls st' = calls st ++ issued_creates resources st.
Proof.
  induction resources as [|spec rest IH]; intros st out; simpl.
  - exists st, out. by rewrite app_nil_r.
  - destruct (create_body_spec spec st out)
      as (st1 & out1 & Hsl & Hob & Hlg & Hbody).
    rewrite client_resolution in Hbody. rewrite client_resolution.
    destruct (ParseGroupVersion (GetAPIVersion spec st)) as [gv|e].
    + destruct Hbody as [-> Hcalls].
      destruct (IH st1 out1) as (st' & out' & -> & Hsl' & Hob' & Hlg' & Hcalls').
      rewrite (frame_resolution_error st st1) by by apply objects_frame_eq.
      rewrite (frame_issued_creates st st1) in Hcalls' by done.
      exists st', out'. split; [done |]. split; [congruence |].
      split; [congruence |]. split; [congruence |].
      by rewrite Hcalls', Hcalls, <- (assoc_L (++)).
    + destruct Hbody as [-> Hcalls]. exists st1, out1.
      by rewrite app_nil_r.
Qed.

Lemma issued_creates_resolved (a : list Unstructured) st :
  resolution_error a st = None →
  Forall2 (λ spec call, create_request spec st = Some call)
          a (issued_creates a st).
Proof.
  induction a as [|spec a IH]; simpl; [constructor |].
  pose proof (client_resolution spec st) as Hc.
  destruct (ParseGroupVersion (GetAPIVersion spec st)); [| done].
  rewrite Hc. intros Hrest. constructor; [| by apply IH].
  unfold create_request. by rewrite Hc.
Qed.

(** X12: the draft's [create] never returns the error of a create.  Its
    result is the first failure to parse an [apiVersion], [nil] when there
    is none; up to there it sends one create per resource, in file order,
    the resource as it is stored, with no existence check before it; it
    writes nothing to the heap and nothing to the log. *)
Theorem create_swallows_create_errors (resources : list Unstructured) st out :
  ∃ st' out',
    create resources st out = (resolution_error resources st, st', out') ∧
    slices st' = slices st ∧ objects st' = objects st ∧
    logs st' = logs st ∧
    calls st' = calls st ++ issued_creates resources st ∧
    (resolution_error resources st = None →
     Forall2 (λ spec call, create_request spec st = Some call)
             resources (issued_creates resources st)) ∧
    (∀ e, resolution_error resources st = Some e →
          ∃ spec, spec ∈ resources ∧
                  ParseGroupVersion (GetAPIVersion spec st) = inr e).
Proof.
  destruct (create_spec resources st out)
    as (st' & out' & Hrun & Hsl & Hob & Hlg & Hcalls).
  exists st', out'. split; [done |]. split; [done |]. split; [done |].
  split; [done |]. split; [done |].
  split; [apply issued_creates_resolved | apply resolution_error_elem].
Qed.
End DraftClaims.

Section DraftParse.
Context {lower : Strings.UnicodeLower} {decoder : YAMLDecoder}
  {Σ : Type} {remote : DynamicInterface Σ}.

Implicit Types (st : State Σ) (out : list Printed).

(** X13: the draft's [Apply] reads the manifest once.  The first call
    parses the file, panicking when it cannot be opened, and keeps the
    resources, a slice that is not [nil] even for a file with no document;
    every later call works on that slice: it neither reads the file again
    nor panics nor runs on, whatever has become of the file. *)
Theorem Apply_draft_parses_once (files : Files) (fuel : nat)
    (f : DraftYamlFile) st out :
  (Apply_draft fuel f st out = Panicked ↔
   Resources f = None ∧ os_Open (Name f) = None) ∧
  ∀ err f' st' out',
    Apply_draft fuel f st out = Returned (err, f', st', out') →
    Name f' = Name f ∧ is_Some (Resources f') ∧
    (is_Some (Resources f) → f' = f) ∧
    ∀ (later : Files) (fuel' : nat) st2 out2,
      (∃ r, Apply_draft (files := later) fuel' f' st2 out2 = Returned r) ∧
      Apply_draft (files := later) fuel' f' st2 out2
      = Apply_draft (files := files) fuel f' st2 out2.
Proof.
  assert (∀ (g : DraftYamlFile) (later : Files) (fuel' : nat) st2 out2,
            is_Some (Resources g) →
            (∃ r, Apply_draft (files := later) fuel' g st2 out2
                  = Returned r) ∧
            Apply_draft (files := later) fuel' g st2 out2
            = Apply_draft (files := files) fuel g st2 out2) as Hlater.
  { intros g later fuel' st2 out2 [a Ha]. unfold Apply_draft. rewrite Ha.
    simpl. destruct (create _ st2 out2) as [[e s] o].
    split; [by eexists | done]. }
  unfold Apply_draft at 1 2.
  destruct (Resources f) as [a|] eqn:Hres; simpl.
  - destruct (create _ st out) as [[e s] o] eqn:Hcreate.
    split; [split; [done | by intros [? _]] |].
    intros err f' st' out' [= <- <- <- <-].
    split; [done |]. split; [by rewrite Hres |]. split; [done |].
    intros later fuel' st2 out2. apply Hlater. by rewrite Hres.
  - unfold parse_draft, read.
    destruct (os_Open (Name f)) as [file|]; simpl; [| by split].
    destruct (read_loop fuel _ 0) as [docs|]; simpl;
      [| split; [split; [done | by intros [_ ?]] | done]].
    destruct (decode_draft docs st out) as [[result st1] out1]. simpl.
    rewrite lookup_insert_eq. simpl.
    destruct (create result _ out1) as [[e s] o].
    split; [split; [done | by intros [_ ?]] |].
    intros err f' st' out' [= <- <- <- <-]. simpl.
    split; [done |]. split; [by eexists |]. split; [by intros [? ?] |].
    intros later fuel' st2 out2. apply Hlater. by eexists.
Qed.
End DraftParse.

Section DraftStoreClaims.
Context {lower : Strings.UnicodeLower}.

Implicit Types (st : State Cluster) (spec : Unstructured)
  (out : list Printed).

Lemma settled_mono (k : Key) (s s' : Cluster) :
  stored s ⊆ stored s' → rejected s' = rejected s →
  settled k s → settled k s'.
Proof.
  intros Hsub Hrej [Hin|Hin]; [left | right; by rewrite Hrej].
  apply elem_of_dom in Hin as [o Ho]. apply elem_of_dom.
  exists o. by eapply lookup_weaken.
Qed.

Lemma create_body_store spec st out :
  let st' := (create_body spec st out).1.2 in
  objects st' = objects st ∧
  stored (cluster st) ⊆ stored (cluster st') ∧
  rejected (cluster st') = rejected (cluster st) ∧
  (∀ e, client spec st = inr e → st' = st) ∧
  ∀ c, client spec st = inl c →
       settled (key_of c (GetName spec st)) (cluster st') ∧
       (settled (key_of c (GetName spec st)) (cluster st) →
        cluster st' = cluster st).
Proof.
  unfold create_body.
  pose proof (client_draft_client spec st out) as Hc.
  destruct (client_draft spec st out) as [c out1]. simpl in Hc. subst c.
  destruct (client spec st) as [c|e]; simpl; [| done].
  unfold Create. simpl.
  change (f_name (fields spec st)) with (GetName spec st).
  set (k := key_of c (GetName spec st)).
  destruct (decide (k ∈ rejected (cluster st))) as [Hrej|Hrej]; simpl.
  { split; [done |]. split; [done |]. split; [done |]. split; [done |].
    intros ? [= <-]. split; [by right | done]. }
  destruct (stored (cluster st) !! k) as [o|] eqn:Hk; simpl.
  - split; [done |]. split; [done |]. split; [done |]. split; [done |].
    intros ? [= <-]. split; [| done].
    left. apply elem_of_dom. by eexists.
  - split; [done |]. split; [by apply insert_subseteq |]. split; [done |].
    split; [done |]. intros ? [= <-]. split.
    + left. simpl. rewrite dom_insert_L. set_solver.
    + intros [Hin|Hin]; [| done].
      by apply not_elem_of_dom in Hk.
Qed.

Lemma create_store (resources : list Unstructured) : ∀ st out,
  let st' := (create resources st out).1.2 in
  objects st' = objects st ∧
  stored (cluster st) ⊆ stored (cluster st') ∧
  rejected (cluster st') = rejected (cluster st) ∧
  prefix_settled resources st (cluster st') ∧
  (prefix_settled resources st (cluster st) → cluster st' = cluster st).
Proof.
  induction resources as [|spec rest IH]; intros st out; simpl; [done |].
  pose proof (create_body_store spec st out)
    as (Hob & Hsub & Hrej & Hun & Hkey).
  pose proof (create_body_spec spec st out) as (st1 & out1 & _ & _ & _ & Hb).
  destruct (client spec st) as [c|e] eqn:Hc.
  - destruct Hb as [Hb _]. rewrite Hb in *. simpl in *.
    destruct (Hkey c eq_refl) as [Hset Hsame].
    destruct (IH st1 out1) as (Hob' & Hsub' & Hrej' & Hpre & Hsame').
    assert (∀ s, prefix_settled rest st1 s ↔ prefix_settled rest st s) as Hfr.
    { intros s. clear -Hob. induction rest as [|spec' rest IH]; simpl; [done |].
      rewrite (frame_client st st1), (frame_GetName st st1)
        by by apply objects_frame_eq.
      destruct (client spec' st); [| done]. by rewrite IH. }
    split; [congruence |]. split; [by etrans |]. split; [congruence |].
    split.
    + split; [by eapply settled_mono | by apply Hfr].
    + intros [Hk Hrest]. rewrite Hsame', Hsame; [done | done |].
      apply Hfr. by rewrite Hsame.
  - destruct Hb as [Hb _]. rewrite Hb in *. simpl in *.
    rewrite (Hun e eq_refl). done.
Qed.

(** X14: the draft's [Apply] creates blindly, so a second run sends every
    create again; the store answers already-exists, or rejects as before,
    and [create] drops those answers: the second run returns what the first
    returned and leaves the store exactly as the first left it. *)
Theorem create_again_changes_nothing (resources : list Unstructured) st out :
  let first := create resources st out in
  let second := create resources first.1.2 first.2 in
  second.1.1 = first.1.1 ∧
  cluster second.1.2 = cluster first.1.2 ∧
  calls_since first.1.2 second.1.2 = calls_since st first.1.2.
Proof.
  intros first second.
  destruct (create_spec resources st out)
    as (st1 & out1 & Hrun1 & _ & Hob1 & _ & Hcalls1).
  destruct (create_store resources st out) as (_ & _ & _ & Hpre & _).
  fold first in Hrun1, Hpre. unfold second. rewrite Hrun1 in *. simpl in *.
  destruct (create_spec resources st1 out1)
    as (st2 & out2 & Hrun2 & _ & _ & _ & Hcalls2).
  destruct (create_store resources st1 out1) as (_ & _ & _ & _ & Hsame).
  rewrite Hrun2 in *. simpl in *.
  assert (objects_frame st st1) as F by by apply objects_frame_eq.
  split; [by rewrite (frame_resolution_error st st1) |].
  split.
  - apply Hsame. clear -Hpre F.
    induction resources as [|spec rest IH]; simpl in *; [done |].
    rewrite (frame_client st st1), (frame_GetName st st1) by done.
    destruct (client spec st); [| done].
    destruct Hpre as [Hk Hrest]. split; [done | by apply IH].
  - rewrite (calls_since_app _ _ _ Hcalls1), (calls_since_app _ _ _ Hcalls2).
    by apply frame_issued_creates.
Qed.
End DraftStoreClaims.

(** ** The engine before the cluster-scope check *)

Section EarlierClaims.
Context {lower : Strings.UnicodeLower} {Σ : Type} {remote : DynamicInterface Σ}.

Implicit Types (st : State Σ) (spec : Unstructured).

Lemma Apply_body_earlier_owners (owner : OwnerReference) spec st :
  let st' := (Apply_body_earlier owner spec st).2 in
  ∃ more, calls st' = calls st ++ more ∧
          Forall (λ call, ∀ refs, created_owners call = Some refs →
                                  refs = [owner]) more.
Proof.
  unfold Apply_body_earlier.
  destruct (client spec st) as [c|e]; cbv beta iota;
    [| exists []; by rewrite app_nil_r].
  unfold Get. destruct (dyn_Get _ _ _) as [[gerr|] r]; cbv beta iota;
    [| eexists [_]; split; [done |]; by repeat constructor].
  destruct (IsNotFound gerr); cbv beta iota delta [negb];
    [| eexists [_]; split; [done |]; by repeat constructor].
  set (st0 := remote_call (CallGet c (GetName spec st)) r st).
  pose proof (SetOwnerReferences_spec spec [owner] st0) as Hset.
  destruct (SetOwnerReferences spec [owner] st0) as [spec' st1].
  destruct Hset as (_ & _ & Hcalls & _ & _ & Hfields).
  unfold Create. cbv zeta. rewrite Hfields.
  destruct (dyn_Create _ _ _) as [[cerr|] r']; simpl.
  - destruct (IsAlreadyExists cerr); simpl; rewrite Hcalls; simpl;
      rewrite <- (assoc_L (++)); eexists [_; _]; (split; [done |]);
      repeat constructor; by intros ? [= <-].
  - rewrite Hcalls; simpl.
    rewrite <- (assoc_L (++)); eexists [_; _]; (split; [done |]).
    repeat constructor; by intros ? [= <-].
Qed.

(** X15: before the cluster-scope check was added, [Apply] tagged every
    resource it created: each create it sends carries exactly the caller's
    owner reference, whatever the kind of the resource. *)
Theorem earlier_Apply_tags_every_create f (owner : OwnerReference) st :
  Forall (λ call, ∀ refs, created_owners call = Some refs → refs = [owner])
         (calls_since st (Apply_earlier f owner st).2).
Proof.
  unfold Apply_earlier. generalize (slices st !!! resources f). intros rs.
  assert (∀ st, ∃ more,
            calls (Apply_range_earlier owner rs st).2 = calls st ++ more ∧
            Forall (λ call, ∀ refs, created_owners call = Some refs →
                                    refs = [owner]) more) as H.
  { clear st. induction rs as [|spec rest IH]; intros st; simpl.
    { exists []. by rewrite app_nil_r. }
    destruct (Apply_body_earlier_owners owner spec st) as (m1 & Hc1 & Hf1).
    destruct (Apply_body_earlier owner spec st) as [[e|] st1]; simpl in *;
      [by exists m1 |].
    destruct (IH st1) as (m2 & Hc2 & Hf2).
    exists (m1 ++ m2). split; [| by apply Forall_app].
    by rewrite Hc2, Hc1, <- (assoc_L (++)). }
  destruct (H st) as (more & Hcalls & Hall).
  unfold calls_since. rewrite Hcalls.
  by rewrite drop_app_length.
Qed.

Lemma Apply_body_revisions (owner : OwnerReference) spec st1 st2 :
  same_but_log_text st1 st2 →
  isClusterScoped (GetKind spec st1) = false →
  (Apply_body_earlier owner spec st2).1 = (Apply_body owner spec st1).1 ∧
  same_but_log_text (Apply_body owner spec st1).2
                    (Apply_body_earlier owner spec st2).2.
Proof.
  destruct st1 as [s o c k l1], st2 as [s2 o2 c2 k2 l2].
  intros (Hs & Ho & Hc & Hk & Hl) Hkind. simpl in *. subst s2 o2 c2 k2.
  unfold Apply_body_earlier, Apply_body. 
  unfold GetKind, fields in Hkind. simpl in Hkind.
  unfold client, Get, GetName, GetKind, GetAPIVersion, GetNamespace, fields.
  simpl.
  destruct (ParseGroupVersion _) as [gv|e]; [| by repeat split].
  destruct (String.eqb _ _); simpl.
  all: destruct (dyn_Get _ _ _) as [[gerr|] r]; simpl; [| by repeat split].
  all: destruct (IsNotFound gerr); simpl; [| by repeat split].
  all: rewrite Hkind; simpl.
  all: unfold Create, fields; simpl.
  all: destruct (dyn_Create _ _ _) as [[cerr|] r']; simpl;
    [destruct (IsAlreadyExists cerr); by repeat split |].
  all: repeat split; try done; simpl; rewrite !length_app; simpl; lia.
Qed.

(** X16: the cluster-scope check changed nothing for a manifest without
    cluster-scoped kinds: on such a manifest the two revisions of [Apply]
    return the same error, send the same remote calls, leave the remote
    side and the heap in the same state, and write as many log lines. *)
Theorem cluster_scope_check_is_conservative f (owner : OwnerReference) st :
  Forall (λ spec, isClusterScoped (GetKind spec st) = false)
         (slices st !!! resources f) →
  (Apply_earlier f owner st).1 = (Apply f owner st).1 ∧
  same_but_log_text (Apply f owner st).2 (Apply_earlier f owner st).2.
Proof.
  unfold Apply_earlier, Apply. generalize (slices st !!! resources f).
  intros rs Hrs.
  assert (same_but_log_text st st) as Hsame by done.
  revert Hsame Hrs. generalize st at 1 3 5 6. generalize st.
  induction rs as [|spec rest IH]; intros st2 st1 Hsame Hrs; simpl; [done |].
  apply Forall_cons in Hrs as [Hkind Hrs].
  destruct (Apply_body_revisions owner spec st1 st2 Hsame Hkind)
    as [Herr Hsame'].
  pose proof (Apply_body_spec owner spec st1) as Hframe.
  destruct (Apply_body owner spec st1) as [e1 st1'].
  destruct (Apply_body_earlier owner spec st2) as [e2 st2'].
  simpl in *. subst e2. destruct e1 as [e|]; [done |].
  destruct (Hframe _ _ eq_refl) as (_ & Hfr & _).
  apply IH; [done |].
  eapply Forall_impl; [exact Hrs |]. intros spec' Hk. simpl in Hk.
  destruct (frame_fields st1 st1' spec' Hfr) as (_ & Hkd & _).
  unfold GetKind. by rewrite <- Hkd.
Qed.
End EarlierClaims.

(** ** The controller *)

Section ControllerClaims.
Context {lower : Strings.UnicodeLower} {Σ : Type} {remote : DynamicInterface Σ}
  {K : Type} {api : Client K} {env : Environment}
  {with_instance : ApplyInstance Σ}.

Implicit Types (op : Operator Σ K) (st : State Σ).

Lemma ResourceNames_slice_nil f st :
  ResourceNames_slice f st = None ↔ slices st !!! resources f = [].
Proof.
  unfold ResourceNames_slice, ResourceNames.
  by destruct (slices st !!! resources f).
Qed.

(** X17: a request for an instance that is gone tears the manifest down.
    [Reconcile] runs [Delete], whose deletes go out in reverse file order up
    to the first resource whose endpoint does not resolve, and returns
    [nil] whatever [Delete] returned, so the request is not queued again;
    nothing is written through the client. *)
Theorem Reconcile_of_deleted_instance f (request : Request) op (err : error) :
  (client_Get request (kube op)).1 = inr err →
  IsNotFound err = true →
  ∃ st',
    Delete f (engine op)
    = Some (resolution_error (reverse (slices (engine op) !!! resources f))
                             (engine op), st') ∧
    Reconcile f request op
    = Some (None,
            mkOperator st' (client_Get request (kube op)).2
              (controller_log op ++ [ReqInfo request "Reconciling Install"])) ∧
    calls st'
    = calls (engine op)
      ++ issued_deletes (reverse (slices (engine op) !!! resources f))
                        (engine op) ∧
    objects st' = objects (engine op).
Proof.
  intros Hget Hnf.
  destruct (Delete_spec f (engine op)) as (st' & Hdel & _ & Hob & Hcalls).
  exists st'. split; [done |]. split; [| done].
  unfold Reconcile. simpl.
  destruct (client_Get request (kube op)) as [got k]. simpl in *. subst got.
  rewrite Hnf. simpl. by rewrite Hdel.
Qed.

(** X18: [Reconcile] always returns.  When it returns an error, the error
    is that of [Get], not being not-found, or that of [Apply], or that of
    the status update, never one of [Delete]; and unless it is the error of
    the update, nothing was written through the client. *)
Theorem Reconcile_errors f (request : Request) op :
  ∃ err op',
    Reconcile f request op = Some (err, op') ∧
    ∀ e, err = Some e →
      let got := client_Get request (kube op) in
      (got.1 = inr e ∧ IsNotFound e = false ∧
       kube op' = got.2 ∧ engine op' = engine op) ∨
      ∃ instance,
        got.1 = inl instance ∧
        Status_Resources (Install_Status instance) = None ∧
        engine op' = (config_Apply f instance (engine op)).2 ∧
        (((config_Apply f instance (engine op)).1 = Some e ∧
          kube op' = got.2) ∨
         ((config_Apply f instance (engine op)).1 = None ∧
          client_StatusUpdate
            (with_status (ResourceNames_slice f (engine op'))
                         getKnativeServingVersion instance) got.2
          = (Some e, kube op'))).
Proof.
  unfold Reconcile. simpl.
  destruct (client_Get request (kube op)) as [[instance|gerr] k]; simpl.
  - destruct (Status_Resources (Install_Status instance)) as [names|] eqn:Hst.
    { eexists _, _. split; [done |]. by intros e [=]. }
    destruct (config_Apply f instance (engine op)) as [[aerr|] st] eqn:Happ;
      simpl.
    { eexists _, _. split; [done |]. intros e [= <-].
      right. exists instance. rewrite Happ. simpl.
      split; [done |]. split; [done |]. split; [done |]. left. by split. }
    destruct (client_StatusUpdate _ k) as [[uerr|] k'] eqn:Hup; simpl.
    + eexists _, _. split; [done |]. intros e [= <-].
      right. exists instance. rewrite Happ. simpl.
      split; [done |]. split; [done |]. split; [done |]. right. by split.
    + eexists _, _. split; [done |]. by intros e [=].
  - destruct (IsNotFound gerr) eqn:Hnf; simpl.
    + destruct (Delete_spec f (engine op)) as (st' & Hdel & _).
      rewrite Hdel. simpl. eexists _, _. split; [done |]. by intros e [=].
    + eexists _, _. split; [done |]. intros e [= <-]. left. by repeat split.
Qed.

(** X19: the guard on [Status.Resources] stops a second run only for a
    manifest with a resource.  Take a run that finds the instance with no
    resources in its status and gets through: it has sent the status with
    the names of the resources and the version.  When the client then
    reads the instance as it was sent, the next run does nothing but the
    read if the manifest has a resource; for a manifest with none the names
    are [nil], the guard does not hold, and the run calls [Apply] again. *)
Theorem Reconcile_guard_needs_a_resource f (request : Request) op
    (instance : Install) :
  let first := Reconcile f request op in
  let op1 := (default (None, op) first).2 in
  let recorded :=
    with_status (ResourceNames_slice f (engine op1))
                getKnativeServingVersion instance in
  (client_Get request (kube op)).1 = inl instance →
  Status_Resources (Install_Status instance) = None →
  fst <$> first = Some None →
  (client_Get request (kube op1)).1 = inl recorded →
  kube op1
  = (client_StatusUpdate recorded (client_Get request (kube op)).2).2 ∧
  (slices (engine op1) !!! resources f ≠ [] →
   Reconcile f request op1
   = Some (None,
           mkOperator (engine op1) (client_Get request (kube op1)).2
             (controller_log op1
                ++ [ReqInfo request "Reconciling Install"]))) ∧
  (slices (engine op1) !!! resources f = [] →
   ∃ err op2,
     Reconcile f request op1 = Some (err, op2) ∧
     engine op2 = (config_Apply f recorded (engine op1)).2).
Proof.
  intros first op1 recorded Hget Hnil Hfirst Hread.
  assert (engine op1 = (config_Apply f instance (engine op)).2) as Heng.
  { subst op1 first. revert Hfirst. clear Hread recorded.
    unfold Reconcile. simpl.
    destruct (client_Get request (kube op)) as [got k]. simpl in *.
    subst got. rewrite Hnil.
    destruct (config_Apply f instance (engine op)) as [[aerr|] st]; simpl;
      [done |].
    by destruct (client_StatusUpdate _ k) as [[uerr|] k']. }
  assert (kube op1
          = (client_StatusUpdate recorded
               (client_Get request (kube op)).2).2) as Hkube.
  { subst recorded. rewrite Heng. subst op1 first. revert Hfirst.
    clear Hread Heng. unfold Reconcile. simpl.
    destruct (client_Get request (kube op)) as [got k]. simpl in *.
    subst got. rewrite Hnil.
    destruct (config_Apply f instance (engine op)) as [[aerr|] st]; simpl;
      [done |].
    by destruct (client_StatusUpdate _ k) as [[uerr|] k']. }
  split; [done |].
  assert (Status_Resources (Install_Status recorded)
          = ResourceNames_slice f (engine op1)) as Hrec by done.
  clearbody recorded op1. clear Hfirst first.
  split.
  - intros Hsome. unfold Reconcile at 1. simpl.
    destruct (client_Get request (kube op1)) as [got k]. simpl in *.
    subst got. rewrite Hrec.
    destruct (ResourceNames_slice f (engine op1)) eqn:Hnames; [done |].
    by apply ResourceNames_slice_nil in Hnames.
  - intros Hnone. unfold Reconcile at 1. simpl.
    destruct (client_Get request (kube op1)) as [got k]. simpl in *.
    subst got. rewrite Hrec.
    apply ResourceNames_slice_nil in Hnone. rewrite Hnone.
    destruct (config_Apply f recorded (engine op1)) as [[aerr|] st]; simpl;
      [by eexists _, _ |].
    destruct (client_StatusUpdate _ k) as [[uerr|] k']; by eexists _, _.
Qed.
End ControllerClaims.

(** * Runs on the sample manifests *)

Import Sample.

Lemma load_returned (path : string) :
  returns (NewYamlFile 8 path (init empty_cluster)) = true →
  NewYamlFile 8 path (init empty_cluster)
  = Returned ((load path).1, (load path).2).
Proof.
  unfold load.
  by destruct (NewYamlFile 8 path (init empty_cluster)) as [[f st]| |].
Defined.

Lemma load_manifest :
  NewYamlFile 8 "/tmp/knative-serving.yaml" (init empty_cluster)
  = Returned (manifest, loaded).
Proof. apply load_returned. vm_compute. reflexivity. Defined.

Lemma load_empty_manifest :
  NewYamlFile 8 "/tmp/empty.yaml" (init empty_cluster)
  = Returned (empty_manifest, empty_loaded).
Proof. apply load_returned. vm_compute. reflexivity. Defined.

Lemma manifest_resources :
  slices loaded !!! resources manifest
  = [{| Object := Some 1%positive |}; {| Object := Some 2%positive |}; {| Object := Some 3%positive |}].
Proof. vm_compute. reflexivity. Qed.

Lemma manifest_live : live manifest loaded.
Proof. vm_compute. eexists. reflexivity. Defined.

Lemma manifest_resolves :
  Forall (resolves loaded) (slices loaded !!! resources manifest).
Proof.
  rewrite manifest_resources.
  repeat constructor; vm_compute; eexists; reflexivity.
Defined.

(** The ownership policy on the sample: the CustomResourceDefinition is
    created without owner reference, the Deployment with the caller's. *)
Example ownership_on_sample :
  (λ call, match call with
           | CallCreate _ obj => Some (f_kind obj, f_ownerReferences obj)
           | _ => None
           end) <$> calls (Apply manifest owner loaded).2
  = [None; Some ("CustomResourceDefinition", []);
     None; Some ("Deployment", [owner]);
     None; Some ("Service", [owner])].
Proof. vm_compute. reflexivity. Qed.

(** Witness of C1: the engine built from the sample manifest, applied
    twice to the empty store. *)
Lemma Apply_twice_on_sample :
  (Apply manifest owner loaded).1 = None ∧
  (Apply manifest owner (Apply manifest owner loaded).2).1 = None ∧
  Forall (λ call, is_create call = false)
         (calls_since (Apply manifest owner loaded).2
                      (Apply manifest owner (Apply manifest owner loaded).2).2).
Proof.
  destruct (Apply_twice_from_empty_store 8 "/tmp/knative-serving.yaml"
              (init empty_cluster) manifest loaded owner
              load_manifest eq_refl)
    as (_ & H1 & H2 & _ & _ & _ & H3 & _).
  exact (conj H1 (conj H2 H3)).
Defined.

(** A document whose [apiVersion] is a/b/c does not reach the engine: its
    decoding fails, and the parser leaves it out with a warning. *)
Example unparsable_apiVersion_is_not_decoded :
  Decode "bad-version"
  = inr (errorString
           ("error unmarshaling JSON: Object 'Kind' is missing in '"
              +:+ "{apiVersion: a/b/c, kind: Service}" +:+ "'")) ∧
  match parse 8 "/tmp/bad-version.yaml" (init empty_cluster) with
  | Returned (rs, st') =>
      Some ((λ spec, fields spec st') <$> rs, length (logs st'))
  | _ => None
  end = Some ([crd; service], 1).
Proof. split; vm_compute; reflexivity. Qed.

(** Witness of C3: the store refuses the Deployment, the second of three
    resources. *)
Lemma create_refused_on_sample :
  ∃ st',
    Apply_range owner
      ([{| Object := Some 1%positive |}]
         ++ {| Object := Some 2%positive |} :: [{| Object := Some 3%positive |}])
      (facing strict_cluster loaded)
    = (Some (StatusError StatusReasonForbidden), st') ∧
    omap created_key (calls st')
    = [key_of customresourcedefinitions "services.serving.knative.dev";
       key_of deployments "controller"].
Proof.
  destruct (partial_failure_containment owner
              [{| Object := Some 1%positive |}] [{| Object := Some 3%positive |}]
              {| Object := Some 2%positive |}
              (facing strict_cluster loaded) deployments
              (StatusError StatusReasonNotFound)
              (StatusError StatusReasonForbidden))
    as (st' & Hcalls & _ & _ & _ & _ & Hfail & _);
    [vm_compute; reflexivity .. |].
  exists st'. split; [by apply Hfail |].
  rewrite Hcalls. vm_compute. reflexivity.
Defined.




(** Witness of C8: apply, delete, apply again. *)
Lemma frame_on_sample :
  ∃ st',
    run [OpApply owner; OpDelete; OpApply owner] manifest loaded = Some st' ∧
    slices st' !! resources manifest = slices loaded !! resources manifest ∧
    same_fields_but_owner (fields {| Object := Some 2%positive |} loaded)
                          (fields {| Object := Some 2%positive |} st').
Proof.
  destruct (engine_frame [OpApply owner; OpDelete; OpApply owner]
              manifest loaded manifest_live)
    as (st' & Hrun & Hsl & Hframe & _).
  exists st'. split; [exact Hrun |]. split; [exact Hsl | apply Hframe].
Defined.

(** Counterexample to C8 as stated: the Deployment of the sample has no
    owner reference when parsed; after one call of [Apply] the resource
    stored in [f.resources], the same as before, has the owner the caller
    supplied, and has it still after a [Delete]. *)
Lemma owner_reference_is_kept_on_sample :
  (slices loaded !!! resources manifest) !! 1
  = Some {| Object := Some 2%positive |} ∧
  f_ownerReferences (fields {| Object := Some 2%positive |} loaded) = [] ∧
  (slices (Apply manifest owner loaded).2 !!! resources manifest) !! 1
  = Some {| Object := Some 2%positive |} ∧
  f_ownerReferences
    (fields {| Object := Some 2%positive |} (Apply manifest owner loaded).2)
  = [owner] ∧
  (λ res : option error * State Cluster,
     f_ownerReferences (fields {| Object := Some 2%positive |} res.2))
    <$> Delete manifest (Apply manifest owner loaded).2
  = Some [owner].
Proof. repeat split; vm_compute; reflexivity. Qed.

(** Witness of C10: [Delete] on the sample. *)
Lemma Delete_on_sample :
  ∃ err st',
    Delete manifest loaded = Some (err, st') ∧
    slices st' !! resources manifest = slices loaded !! resources manifest ∧
    ResourceNames manifest st' = ResourceNames manifest loaded.
Proof.
  destruct (Delete_leaves_resources manifest loaded manifest_live)
    as (err & st' & Hrun & Hsl & _ & Hnames & _).
  exists err, st'. split; [exact Hrun |]. split; [exact Hsl | exact Hnames].
Defined.

(** Counterexample to C9 as stated: [Apply] returns [nil] and nothing else
    both on the sample manifest, where it gets through three resources, and
    on the empty manifest, where there is none; no reading of the returned
    value gives the identifiers of both runs. *)
Lemma Apply_returns_no_identifiers :
  ¬ ∃ identifiers : option error → list string,
      identifiers (Apply manifest owner loaded).1
      = (λ spec, resource_name spec loaded)
          <$> processed owner (slices loaded !!! resources manifest) loaded ∧
      identifiers (Apply empty_manifest owner empty_loaded).1
      = (λ spec, resource_name spec empty_loaded)
          <$> processed owner (slices empty_loaded !!! resources empty_manifest)
                        empty_loaded.
Proof.
  intros (identifiers & H3 & H0).
  vm_compute in H3. vm_compute in H0. congruence.
Qed.

(** Witness of X2: the kind NetworkPolicy. *)
Lemma kind_case_on_sample :
  pluralize (Strings.ToLower "NetworkPolicy") = pluralize "NetworkPolicy" ∧
  pluralize "NetworkPolicy" = "networkpolicies".
Proof.
  destruct (kind_case_is_ignored "NetworkPolicy" eq_refl) as (_ & H & _).
  split; [exact H | reflexivity].
Defined.

(** Witness of X5: the second document of the manifest has the
    [apiVersion] a/b/c. *)
Lemma Apply_aborts_on_sample :
  Apply_range owner
    ([{| Object := Some 1%positive |}]
       ++ {| Object := Some 2%positive |} :: [{| Object := Some 3%positive |}])
    bad_loaded
  = (Some (errorString "unexpected GroupVersion string: a/b/c"),
     (Apply_range owner [{| Object := Some 1%positive |}] bad_loaded).2).
Proof.
  destruct (Apply_aborts_before_create owner
              [{| Object := Some 1%positive |}] [{| Object := Some 3%positive |}]
              {| Object := Some 2%positive |} bad_loaded)
    as [Hunresolved _]; [vm_compute; reflexivity |].
  apply Hunresolved. vm_compute. reflexivity.
Defined.

(** Witness of X6: the Deployment of the sample, once created. *)
Lemma stored_owner_on_sample :
  f_ownerReferences
    (fields {| Object := Some 2%positive |}
       (Apply_range owner
          ([{| Object := Some 1%positive |}] ++ [{| Object := Some 2%positive |}])
          loaded).2)
  = [owner].
Proof.
  destruct (stored_resource_keeps_owner owner
              [{| Object := Some 1%positive |}] {| Object := Some 2%positive |}
              loaded deployments (StatusError StatusReasonNotFound)
              2%positive)
    as (_ & Howner & _); [vm_compute; reflexivity .. |].
  apply Howner. vm_compute. reflexivity.
Defined.

(** Witness of X9: [Delete] on the sample manifest. *)
Lemma Delete_resolved_on_sample :
  ∃ st',
    Delete manifest loaded = Some (None, st') ∧
    rejected (cluster st') = rejected (cluster loaded).
Proof.
  destruct (Delete_removes_manifest_objects manifest loaded manifest_resolves)
    as (st' & Hrun & Hrej & _).
  exists st'. split; [exact Hrun | exact Hrej].
Defined.

(** Witness of X10: the sample manifest applied to the empty store, then
    deleted. *)
Lemma Apply_then_Delete_on_sample :
  (Apply manifest owner loaded).1 = None ∧
  ∃ st', Delete manifest (Apply manifest owner loaded).2 = Some (None, st') ∧
         cluster st' = empty_cluster.
Proof.
  exact (Apply_then_Delete_empties_store manifest owner loaded
           eq_refl manifest_resolves).
Defined.

Import Scenario.

(** Witness of X16: the Deployment and the Service of the sample. *)
Lemma revisions_agree_on_sample :
  (Apply_earlier namespaced_manifest owner namespaced_loaded).1
  = (Apply namespaced_manifest owner namespaced_loaded).1 ∧
  calls (Apply_earlier namespaced_manifest owner namespaced_loaded).2
  = calls (Apply namespaced_manifest owner namespaced_loaded).2.
Proof.
  destruct (cluster_scope_check_is_conservative
              namespaced_manifest owner namespaced_loaded)
    as (Herr & _ & _ & _ & Hcalls & _).
  - replace (slices namespaced_loaded !!! resources namespaced_manifest)
      with [{| Object := Some 2%positive |}; {| Object := Some 3%positive |}]
      by (vm_compute; reflexivity).
    repeat constructor; vm_compute; reflexivity.
  - split; [exact Herr | exact Hcalls].
Defined.

(** Witness of X17: a request for an instance the client does not find. *)
Lemma Reconcile_deleted_on_sample :
  ∃ st',
    Reconcile manifest (request_of auto_install) (operator loaded [])
    = Some (None,
            mkOperator st' []
              [ReqInfo (request_of auto_install) "Reconciling Install"]) ∧
    calls st'
    = [CallDelete services "webhook"; CallDelete deployments "controller";
       CallDelete customresourcedefinitions "services.serving.knative.dev"].
Proof.
  destruct (Reconcile_of_deleted_instance manifest (request_of auto_install)
              (operator loaded []) (StatusError StatusReasonNotFound))
    as (st' & _ & Hrun & Hcalls & _); [reflexivity | reflexivity |].
  exists st'. split; [exact Hrun |].
  rewrite Hcalls. vm_compute. reflexivity.
Defined.

(** Witness of X19: two requests for the instance, the sample manifest. *)
Lemma Reconcile_twice_on_sample :
  Reconcile manifest (request_of auto_install) reconciled
  = Some (None,
          mkOperator (engine reconciled)
            (client_Get (request_of auto_install) (kube reconciled)).2
            (controller_log reconciled
               ++ [ReqInfo (request_of auto_install) "Reconciling Install"])).
Proof.
  destruct (Reconcile_guard_needs_a_resource manifest
              (request_of auto_install) (operator loaded [auto_install])
              auto_install)
    as (_ & Hguard & _);
    [reflexivity | reflexivity | vm_compute; reflexivity
    | vm_compute; reflexivity |].
  apply Hguard. intros Hnil. vm_compute in Hnil. discriminate Hnil.
Defined.
